(** * pycurious.optimise: the inversion engine of [CurieOptimise]

    A shallow embedding of [src/pycurious/optimise.py].  Python floats and
    numpy [float64] scalars are IEEE binary64 numbers: they are modelled by
    Rocq's primitive floats, whose operations are the correctly rounded
    binary64 ones.  One-dimensional numpy arrays are lists of floats.
    Python exceptions are explicit: every function that can raise returns
    a [result]. *)

From Stdlib Require Import Floats ZArith List String Bool Lia.
Import ListNotations.

Set Warnings "-inexact-float".
Local Open Scope float_scope.

(** ** Exceptions and results *)

Inductive exn : Type :=
| ValueError
| TypeError
| IndexError
| NameError
| KeyError
| AttributeError
| OtherError.

Inductive result (A : Type) : Type :=
| Ok (a : A)
| Raise (e : exn).

Arguments Ok {A} a.
Arguments Raise {A} e.

Definition rbind {A B : Type} (m : result A) (f : A -> result B) : result B :=
  match m with
  | Ok a => f a
  | Raise e => Raise e
  end.

Declare Scope result_scope.
Delimit Scope result_scope with result.
Notation "x <- m ;; k" := (rbind m (fun x => k))
  (at level 100, m at next level, right associativity) : result_scope.
Local Open Scope result_scope.

Definition is_ok {A : Type} (r : result A) : bool :=
  match r with Ok _ => true | Raise _ => false end.

(** ** Python builtins *)

(** [max(a, b)] keeps [a] unless [b > a]; [min(a, b)] keeps [a] unless
    [b < a].  With a NaN operand every comparison is false, so the first
    argument is returned. *)
Definition py_max (a b : float) : float := if a <? b then b else a.
Definition py_min (a b : float) : float := if b <? a then b else a.

(** A [dict] with string keys: insertion ordered, assignment to a present
    key keeps its position. *)
Module Dict.

Definition t (V : Type) : Type := list (string * V).

Fixpoint get {V : Type} (d : t V) (k : string) : option V :=
  match d with
  | [] => None
  | (k', v) :: r => if String.eqb k' k then Some v else get r k
  end.

Definition mem {V : Type} (d : t V) (k : string) : bool :=
  match get d k with Some _ => true | None => false end.

Fixpoint set {V : Type} (d : t V) (k : string) (v : V) : t V :=
  match d with
  | [] => [(k, v)]
  | (k', v') :: r =>
      if String.eqb k' k then (k', v) :: r else (k', v') :: set r k v
  end.

Definition keys {V : Type} (d : t V) : list string := map fst d.

End Dict.

(** ** numpy *)

Definition ndarray : Type := list float.

(** Element-wise binary operation on one-dimensional arrays with numpy's
    broadcasting: equal lengths, or one operand of length one; any other
    combination of shapes raises [ValueError]. *)
Fixpoint zip_with (op : float -> float -> float) (a b : ndarray) : ndarray :=
  match a, b with
  | x :: a', y :: b' => op x y :: zip_with op a' b'
  | _, _ => []
  end.

Definition broadcast (op : float -> float -> float) (a b : ndarray)
  : result ndarray :=
  if Nat.eqb (List.length a) (List.length b) then Ok (zip_with op a b)
  else match a, b with
       | [x], _ => Ok (map (fun y => op x y) b)
       | _, [y] => Ok (map (fun x => op x y) a)
       | _, _ => Raise ValueError
       end.

(** [x.dot(y)]: the sum of the products, accumulated from 0 in index
    order. *)
Definition dot (a b : ndarray) : float :=
  fold_left (fun acc p => acc + fst p * snd p) (combine a b) 0.

(** [np.linalg.norm(x)] with the default order: the argument is ravelled
    (a scalar becomes the one-element array) and the result is
    [sqrt(x.dot(x))]. *)
Definition linalg_norm (x : ndarray) : float := sqrt (dot x x).

(** [y**2] on a float64 scalar: the correctly rounded square. *)
Definition sq (y : float) : float := y * y.

(** [np.isfinite] *)
Definition isfinite (x : float) : bool := is_finite x.

(** ** The prior store *)

(** A frozen [scipy.stats] distribution: its family and the positional
    arguments it was frozen with ([pdf.args]). *)
Record rv_frozen : Type := mk_rv_frozen {
  dist : string;
  args : list float
}.

(** [stats.norm(p, sigma_p)] *)
Definition stats_norm (p sigma_p : float) : rv_frozen :=
  {| dist := "norm"; args := [p; sigma_p] |}.

(** The values a caller may pass to [add_prior]: a tuple, a frozen
    distribution, or an object of any other type. *)
Inductive pyobj : Type :=
| PyTuple (items : list float)
| PyFrozen (d : rv_frozen)
| PyOther.

Definition bound : Type := (option float * option float)%type.

Record CurieOptimise : Type := mk_CurieOptimise {
  prior : Dict.t (option (list float));
  prior_pdf : Dict.t (option rv_frozen);
  bounds : list bound
}.

Definition set_priors (self : CurieOptimise)
  (p : Dict.t (option (list float))) (q : Dict.t (option rv_frozen))
  : CurieOptimise :=
  {| prior := p; prior_pdf := q; bounds := bounds self |}.

Definition param_names : list string := ["beta"; "zt"; "dz"; "C"]%string.

(** [reset_priors] *)
Definition reset_priors (self : CurieOptimise) : CurieOptimise :=
  set_priors self
    (map (fun k => (k, None)) param_names)
    (map (fun k => (k, None)) param_names).

(** The part of [__init__] that belongs to this class: the priors are
    reset and the bounds are [zip(lb, ub)] with [lb = [0, 0, 0, None]]
    and [ub = [None]*len(lb)]. *)
Definition init_bounds : list bound :=
  let lb := [Some 0; Some 0; Some 0; None] in
  let ub := repeat None (List.length lb) in
  combine lb ub.

Definition init : CurieOptimise :=
  reset_priors {| prior := []; prior_pdf := []; bounds := init_bounds |}.

(** The distribution a keyword value of [add_prior] stands for.  A tuple
    is unpacked into exactly two items. *)
Definition prior_of_value (v : pyobj) : result rv_frozen :=
  match v with
  | PyTuple [p; sigma_p] => Ok (stats_norm p sigma_p)
  | PyTuple _ => Raise ValueError
  | PyFrozen d => Ok d
  | PyOther => Raise ValueError
  end.

(** [add_prior] with its keyword arguments: the keywords are processed
    in order; the object is updated in place, so what was stored before
    an exception stays stored. *)
Fixpoint add_prior (self : CurieOptimise) (kwargs : list (string * pyobj))
  : result unit * CurieOptimise :=
  match kwargs with
  | [] => (Ok tt, self)
  | (key, v) :: rest =>
      if Dict.mem (prior self) key then
        match prior_of_value v with
        | Ok pdf =>
            add_prior
              (set_priors self
                 (Dict.set (prior self) key (Some (args pdf)))
                 (Dict.set (prior_pdf self) key (Some pdf)))
              rest
        | Raise e => (Raise e, self)
        end
      else (Raise ValueError, self)
  end.

(** ** The penalised objective *)

(** [objective_function(x, x0, sigma_x0, *args)]:
    [0.5*np.linalg.norm((x - x0)/sigma_x0)**2]. *)
Definition objective_function (x x0 sigma_x0 : ndarray) : result float :=
  d <- broadcast sub x x0 ;;
  q <- broadcast div d sigma_x0 ;;
  Ok (0.5 * sq (linalg_norm q)).

(** [self.objective_function(val, *prior_args)]: the first two stored
    arguments are bound to [x0] and [sigma_x0], further ones are
    swallowed by [*args]; fewer than two is a [TypeError].  The scalars
    are numpy float64 values, as on every path from [min_func]: a
    division by a zero scale gives an infinity or NaN.  (With builtin
    floats only, Python raises [ZeroDivisionError] there instead; the
    statements below that depend on it exclude a zero scale.) *)
Definition objective_function_star (val : float) (prior_args : list float)
  : result float :=
  match prior_args with
  | x0 :: sigma_x0 :: _ => objective_function [val] [x0] [sigma_x0]
  | _ => Raise TypeError
  end.

(** [objective_routine] with its keyword arguments, in order. *)
Fixpoint objective_routine_from (self : CurieOptimise) (c : float)
  (kwargs : list (string * float)) : result float :=
  match kwargs with
  | [] => Ok c
  | (key, val) :: rest =>
      match Dict.get (prior self) key with
      | Some (Some prior_args) =>
          p <- objective_function_star val prior_args ;;
          objective_routine_from self (c + p) rest
      | _ => objective_routine_from self c rest
      end
  end.

Definition objective_routine (self : CurieOptimise)
  (kwargs : list (string * float)) : result float :=
  objective_routine_from self 0 kwargs.

(** ** Parameter vectors and sample buffers *)

(** The array [[beta, zt, dz, C]]. *)
Record vec4 : Type := mk_vec4 {
  x_beta : float;
  x_zt : float;
  x_dz : float;
  x_C : float
}.

Definition vec4_zip (op : float -> float -> float) (a b : vec4) : vec4 :=
  {| x_beta := op (x_beta a) (x_beta b);
     x_zt := op (x_zt a) (x_zt b);
     x_dz := op (x_dz a) (x_dz b);
     x_C := op (x_C a) (x_C b) |}.

(** [np.ones(4)] *)
Definition np_ones4 : vec4 := mk_vec4 1 1 1 1.

(** [a[i]] on a sequence. *)
Definition getitem {A : Type} (a : list A) (i : nat) : result A :=
  match nth_error a i with
  | Some v => Ok v
  | None => Raise IndexError
  end.

(** [a[i] = v] on an array of rows. *)
Fixpoint set_row {A : Type} (a : list A) (i : nat) (v : A) : result (list A) :=
  match a, i with
  | [], _ => Raise IndexError
  | _ :: r, O => Ok (v :: r)
  | h :: r, S i' => r' <- set_row r i' v ;; Ok (h :: r')
  end.

(** [list(a.T)] for an array of shape (n, 4): the four columns. *)
Definition columns (a : list vec4) : list ndarray :=
  [map x_beta a; map x_zt a; map x_dz a; map x_C a].

(** ** External collaborators

    What [optimise.py] imports and does not define: the forward model
    [bouligand2009] and the grid methods of [CurieGrid] (from [curie.py]),
    [scipy.optimize.minimize], [np.exp], numpy's global random generator
    and the sampler of a frozen distribution.  They are parameters of the
    development.  [spectrum window xc yc] stands for [self.subgrid],
    [process_subgrid] and [self.radial_spectrum] in sequence, and
    [uninit] for the unspecified contents of an [np.empty] row. *)
Record Env : Type := mk_Env {
  rng : Type;
  bouligand2009 : ndarray -> float -> float -> float -> float -> ndarray;
  spectrum : float -> float -> float -> result (ndarray * ndarray * ndarray);
  minimize : (vec4 -> result float) -> vec4 -> list bound -> result vec4;
  np_exp : float -> float;
  random_normal4 : rng -> vec4 * rng;
  random_rand : rng -> float * rng;
  random_normal : ndarray -> ndarray -> rng -> result ndarray * rng;
  rvs : rv_frozen -> rng -> float * rng;
  uninit : nat -> vec4
}.

Existing Class Env.

(** The object and numpy's global generator: the state shared by all
    calls. *)
Record world (E : Env) : Type := mk_world {
  self : CurieOptimise;
  gen : rng E
}.

Arguments mk_world {E} self gen.
Arguments self {E} w.
Arguments gen {E} w.

(** Computations that read and update the world and may raise; the world
    reached when an exception is raised is kept. *)
Definition M (E : Env) (A : Type) : Type := world E -> result A * world E.

Definition ret {E : Env} {A : Type} (a : A) : M E A := fun w => (Ok a, w).

Definition raise {E : Env} {A : Type} (e : exn) : M E A :=
  fun w => (Raise e, w).

Definition lift {E : Env} {A : Type} (r : result A) : M E A := fun w => (r, w).

Definition mbind {E : Env} {A B : Type} (m : M E A) (f : A -> M E B) : M E B :=
  fun w =>
    match m w with
    | (Ok a, w') => f a w'
    | (Raise e, w') => (Raise e, w')
    end.

Declare Scope world_scope.
Delimit Scope world_scope with world.
Notation "x <- m ;; k" := (mbind m (fun x => k))
  (at level 100, m at next level, right associativity) : world_scope.

Definition get_self {E : Env} : M E CurieOptimise := fun w => (Ok (self w), w).

Definition put_prior {E : Env} (p : Dict.t (option (list float))) : M E unit :=
  fun w =>
    (Ok tt, mk_world (set_priors (self w) p (prior_pdf (self w))) (gen w)).

Definition draw {E : Env} {A : Type} (f : rng E -> A * rng E) : M E A :=
  fun w => let (a, g) := f (gen w) in (Ok a, mk_world (self w) g).

Definition draw_result {E : Env} {A : Type} (f : rng E -> result A * rng E)
  : M E A :=
  fun w => let (a, g) := f (gen w) in (a, mk_world (self w) g).

(** [for i in range(lo, lo + n)] in the world. *)
Fixpoint for_range_m {E : Env} {S : Type} (lo n : nat)
  (body : nat -> S -> M E S) (s : S) : M E S :=
  match n with
  | O => ret s
  | Datatypes.S n' =>
      (s' <- body lo s ;; for_range_m (Datatypes.S lo) n' body s')%world
  end.

(** [for key in keys] with a body that returns nothing. *)
Fixpoint for_each {E : Env} (keys : list string) (body : string -> M E unit)
  : M E unit :=
  match keys with
  | [] => ret tt
  | key :: rest => (_ <- body key ;; for_each rest body)%world
  end.

Section Engine.

Context {E : Env}.

(** [np.empty((n, 4))] *)
Definition np_empty (n : nat) : list vec4 := map (uninit E) (seq 0 n).

(** [min_func(x, kh, Phi, sigma_Phi)].  The [catch_warnings] block
    around the forward model silences its warnings and changes no
    value. *)
Definition min_func (self : CurieOptimise) (x : vec4)
  (kh Phi sigma_Phi : ndarray) : result float :=
  let beta := x_beta x in
  let zt := x_zt x in
  let dz := x_dz x in
  let C := x_C x in
  let Phi_syn := bouligand2009 E kh beta zt dz C in
  misfit <- objective_function Phi_syn Phi sigma_Phi ;;
  if negb (isfinite misfit) then Ok 1e99
  else
    p <- objective_routine self
           [("beta"%string, beta); ("zt"%string, zt);
            ("dz"%string, dz); ("C"%string, C)] ;;
    Ok (misfit + p).

(** [self.min_func(x, k, Phi, sigma_Phi)] on the object as it is now. *)
Definition call_min_func (x : vec4) (k Phi sigma_Phi : ndarray) : M E float :=
  fun w => (min_func (self w) x k Phi sigma_Phi, w).

(** [minimize(self.min_func, x0, args=(k, Phi, sigma_Phi),
    bounds=self.bounds)], returning [res.x]. *)
Definition call_minimize (x0 : vec4) (k Phi sigma_Phi : ndarray) : M E vec4 :=
  fun w =>
    (minimize E (fun x => min_func (self w) x k Phi sigma_Phi) x0
       (bounds (self w)), w).

(** [optimise(window, xc, yc, beta, zt, dz, C)] *)
Definition optimise (window xc yc : float) (beta zt dz C : float) : M E vec4 :=
  let x0 := mk_vec4 beta zt dz C in
  (sp <- lift (spectrum E window xc yc) ;;
   let '(k, Phi, sigma_Phi) := sp in
   call_minimize x0 k Phi sigma_Phi)%world.

(** One iteration of the loop of [optimise_routine]. *)
Definition optimise_routine_body (window : float)
  (xc_list yc_list : list float) (beta zt dz C : float)
  (i : nat) (xOpt : list vec4) : M E (list vec4) :=
  (xc <- lift (getitem xc_list i) ;;
   yc <- lift (getitem yc_list i) ;;
   r <- optimise window xc yc beta zt dz C ;;
   lift (set_row xOpt i r))%world.

(** [optimise_routine(window, xc_list, yc_list, beta, zt, dz, C)] *)
Definition optimise_routine (window : float)
  (xc_list yc_list : list float) (beta zt dz C : float)
  : M E (list ndarray) :=
  let n := List.length xc_list in
  if negb (Nat.eqb n (List.length yc_list)) then raise ValueError
  else
    let xOpt := np_empty n in
    (xOpt <- for_range_m 0 n
               (optimise_routine_body window xc_list yc_list beta zt dz C)
               xOpt ;;
     ret (columns xOpt))%world.

(** [x0 + np.random.normal(size=4)*x_scale] *)
Definition propose (x0 z x_scale : vec4) : vec4 :=
  vec4_zip add x0 (vec4_zip mul z x_scale).

(** The state of the two loops of [metropolis_hastings]: the current
    vector [x0] and the buffer [samples]. *)
Definition mh_state : Type := (vec4 * list vec4)%type.

(** The burn-in iteration up to its update of [x0]. *)
Definition burnin_step (x_scale : vec4) (k Phi sigma_Phi : ndarray)
  (x0 : vec4) : M E vec4 :=
  (z <- draw (random_normal4 E) ;;
   let x1 := propose x0 z x_scale in
   m0 <- call_min_func x0 k Phi sigma_Phi ;;
   let P0 := np_exp E ((- m0) / 1000) in
   m1 <- call_min_func x1 k Phi sigma_Phi ;;
   let P1 := np_exp E ((- m1) / 1000) in
   ret (if P0 <? P1 then x1 else x0))%world.

(** One iteration of the burn-in loop: [samples] is not touched. *)
Definition burnin_body (x_scale : vec4) (k Phi sigma_Phi : ndarray)
  (i : nat) (st : mh_state) : M E mh_state :=
  (x0 <- burnin_step x_scale k Phi sigma_Phi (fst st) ;;
   ret (x0, snd st))%world.

(** The acceptance probability of the sampling loop, from the two
    objective values: [P0] and [P1], the floor on [P0], and [P]. *)
Definition acceptance (m0 m1 : float) : float :=
  let P0 := np_exp E (- m0) in
  let P1 := np_exp E (- m1) in
  let P0 := py_max P0 1e-99 in
  py_min (P1 / P0) 1.

(** The sampling iteration up to its update of [x0]. *)
Definition sampling_step (x_scale : vec4) (k Phi sigma_Phi : ndarray)
  (x0 : vec4) : M E vec4 :=
  (z <- draw (random_normal4 E) ;;
   let x1 := propose x0 z x_scale in
   m0 <- call_min_func x0 k Phi sigma_Phi ;;
   m1 <- call_min_func x1 k Phi sigma_Phi ;;
   let P := acceptance m0 m1 in
   u <- draw (random_rand E) ;;
   ret (if u <=? P then x1 else x0))%world.

(** One iteration of the sampling loop: [samples[i] = x0] whatever the
    outcome of the test. *)
Definition sampling_body (x_scale : vec4) (k Phi sigma_Phi : ndarray)
  (i : nat) (st : mh_state) : M E mh_state :=
  (x0 <- sampling_step x_scale k Phi sigma_Phi (fst st) ;;
   samples <- lift (set_row (snd st) i x0) ;;
   ret (x0, samples))%world.

(** The two loops of [metropolis_hastings], on a spectrum. *)
Definition burnin_phase (x_scale : vec4) (k Phi sigma_Phi : ndarray)
  (burnin : nat) (st : mh_state) : M E mh_state :=
  for_range_m 0 burnin (burnin_body x_scale k Phi sigma_Phi) st.

Definition sampling_phase (x_scale : vec4) (k Phi sigma_Phi : ndarray)
  (nsim : nat) (st : mh_state) : M E mh_state :=
  for_range_m 0 nsim (sampling_body x_scale k Phi sigma_Phi) st.

(** [metropolis_hastings(window, xc, yc, nsim, burnin, x_scale, beta,
    zt, dz, C)] *)
Definition metropolis_hastings (window xc yc : float) (nsim burnin : nat)
  (x_scale : option vec4) (beta zt dz C : float) : M E (list ndarray) :=
  let samples := np_empty nsim in
  let x0 := mk_vec4 beta zt dz C in
  let x_scale := match x_scale with Some s => s | None => np_ones4 end in
  (sp <- lift (spectrum E window xc yc) ;;
   let '(k, Phi, sigma_Phi) := sp in
   st <- burnin_phase x_scale k Phi sigma_Phi burnin (x0, samples) ;;
   st <- sampling_phase x_scale k Phi sigma_Phi nsim st ;;
   ret (columns (snd st)))%world.

(** The keys of [self.prior_pdf] whose value is not [None]. *)
Definition active_keys (d : Dict.t (option rv_frozen)) : list string :=
  map fst
    (filter (fun kv => match snd kv with Some _ => true | None => false end)
       d).

(** [self.prior[key][0] = self.prior_pdf[key].rvs()]: the sample is
    drawn first, then the stored list is indexed. *)
Definition perturb (key : string) : M E unit :=
  (s <- get_self ;;
   match Dict.get (prior_pdf s) key with
   | Some (Some pdf) =>
       r <- draw (rvs E pdf) ;;
       match Dict.get (prior s) key with
       | Some (Some (_ :: rest)) =>
           put_prior (Dict.set (prior s) key (Some (r :: rest)))
       | Some (Some []) => raise IndexError
       | Some None => raise TypeError
       | None => raise KeyError
       end
   | Some None => raise AttributeError
   | None => raise KeyError
   end)%world.

(** [self.prior[key] = list(self.prior_pdf[key].args)] *)
Definition restore (key : string) : M E unit :=
  (s <- get_self ;;
   match Dict.get (prior_pdf s) key with
   | Some (Some pdf) => put_prior (Dict.set (prior s) key (Some (args pdf)))
   | Some None => raise AttributeError
   | None => raise KeyError
   end)%world.

(** One iteration of the loop of [sensitivity]. *)
Definition sensitivity_body (use_keys : list string) (x0 : vec4)
  (k Phi sigma_Phi : ndarray) (sim : nat) (samples : list vec4)
  : M E (list vec4) :=
  (_ <- for_each use_keys perturb ;;
   rPhi <- draw_result (random_normal E Phi sigma_Phi) ;;
   r <- call_minimize x0 k rPhi sigma_Phi ;;
   lift (set_row samples sim r))%world.

(** The part of [sensitivity] up to the end of its loop. *)
Definition sensitivity_loop (window xc yc : float) (nsim : nat)
  (beta zt dz C : float) : M E (list string * list vec4) :=
  let samples := np_empty nsim in
  let x0 := mk_vec4 beta zt dz C in
  (s <- get_self ;;
   let use_keys := active_keys (prior_pdf s) in
   sp <- lift (spectrum E window xc yc) ;;
   let '(k, Phi, sigma_Phi) := sp in
   samples <- for_range_m 0 nsim
                (sensitivity_body use_keys x0 k Phi sigma_Phi) samples ;;
   ret (use_keys, samples))%world.

(** [sensitivity(window, xc, yc, nsim, beta, zt, dz, C)].  Its last
    statement calls [yc_list], a name bound neither in the function
    nor in the module: evaluating it raises [NameError]. *)
Definition sensitivity (window xc yc : float) (nsim : nat)
  (beta zt dz C : float) : M E (list ndarray) :=
  (ks <- sensitivity_loop window xc yc nsim beta zt dz C ;;
   _ <- for_each (fst ks) restore ;;
   raise NameError)%world.

End Engine.

(** ** A replayed environment

    A concrete environment on which the functions above can be run: the
    random generator replays a prescribed tape of draws, the minimiser
    evaluates the objective once at the starting point and returns that
    point moved onto the lower bounds, and [np.random.normal(loc, scale)]
    returns [loc].  The forward model keeps the terms of the Bouligand
    spectrum that are linear in the parameters and is NaN for a negative
    [beta]; [step_exp] agrees with [np.exp] where the examples evaluate
    it: 1 at zero, 0 below -746, NaN at NaN. *)

Record tape : Type := mk_tape {
  normals : list vec4;
  uniforms : list float;
  prior_samples : list float
}.

Definition tape_normal4 (t : tape) : vec4 * tape :=
  match normals t with
  | [] => (mk_vec4 0 0 0 0, t)
  | z :: r => (z, mk_tape r (uniforms t) (prior_samples t))
  end.

Definition tape_rand (t : tape) : float * tape :=
  match uniforms t with
  | [] => (0.5, t)
  | u :: r => (u, mk_tape (normals t) r (prior_samples t))
  end.

Definition tape_rvs (d : rv_frozen) (t : tape) : float * tape :=
  match prior_samples t with
  | [] => (0, t)
  | u :: r => (u, mk_tape (normals t) (uniforms t) r)
  end.

Definition linear_model (kh : ndarray) (beta zt dz C : float) : ndarray :=
  if beta <? 0 then map (fun _ => nan) kh
  else map (fun k => C - 2 * k * zt - k * dz) kh.

Definition step_exp (x : float) : float :=
  if x <=? -746 then 0
  else if x =? 0 then 1
  else if x <? 0 then 0.5
  else if 0 <? x then 2
  else nan.

Definition raise_to (lo : option float) (x : float) : float :=
  match lo with
  | Some l => if l <=? x then x else l
  | None => x
  end.

Definition onto_bounds (b : list bound) (x : vec4) : vec4 :=
  {| x_beta := raise_to (fst (nth 0 b (None, None))) (x_beta x);
     x_zt := raise_to (fst (nth 1 b (None, None))) (x_zt x);
     x_dz := raise_to (fst (nth 2 b (None, None))) (x_dz x);
     x_C := raise_to (fst (nth 3 b (None, None))) (x_C x) |}.

Definition one_shot_minimize (f : vec4 -> result float) (x0 : vec4)
  (b : list bound) : result vec4 :=
  _ <- f x0 ;; Ok (onto_bounds b x0).

Definition replay_env
  (sp : float -> float -> float -> result (ndarray * ndarray * ndarray))
  : Env :=
  {| rng := tape;
     bouligand2009 := linear_model;
     spectrum := sp;
     minimize := one_shot_minimize;
     np_exp := step_exp;
     random_normal4 := tape_normal4;
     random_rand := tape_rand;
     random_normal := fun loc scale t => (Ok loc, t);
     rvs := tape_rvs;
     uninit := fun _ => mk_vec4 nan nan nan nan |}.

(** A one-bin spectrum that the starting vector (3, 1, 10, 5) fits
    exactly: at wavenumber 0.5 the linear model gives 5 - 1 - 5. *)
Definition one_bin (window xc yc : float)
  : result (ndarray * ndarray * ndarray) :=
  Ok ([0.5], [-1], [1]).

Definition replay : Env := replay_env one_bin.

(** ** Predicates used in the statements *)

(** A keyword of [add_prior] that makes it raise: the name is not a key
    of [self.prior], or the value is neither a pair nor a frozen
    distribution. *)
Definition invalid_prior (self : CurieOptimise) (kv : string * pyobj) : Prop :=
  Dict.mem (prior self) (fst kv) = false \/
  is_ok (prior_of_value (snd kv)) = false.

(** The parameter [key] has a prior: both slots hold the distribution
    and its arguments. *)
Definition registered (self : CurieOptimise) (key : string) : Prop :=
  exists pdf,
    Dict.get (prior_pdf self) key = Some (Some pdf) /\
    Dict.get (prior self) key = Some (Some (args pdf)).

(** The results of [f] on the items of [l], in order, up to the first
    exception. *)
Fixpoint map_m {E : Env} {A B : Type} (f : A -> M E B) (l : list A)
  : M E (list B) :=
  match l with
  | [] => ret []
  | a :: r => (b <- f a ;; bs <- map_m f r ;; ret (b :: bs))%world
  end.

(** The successive values of a loop variable under [n] runs of [step],
    up to the first exception. *)
Fixpoint iterate_m {E : Env} {A : Type} (step : A -> M E A) (n : nat) (a : A)
  : M E (list A) :=
  match n with
  | O => ret []
  | Datatypes.S n' =>
      (b <- step a ;; bs <- iterate_m step n' b ;; ret (b :: bs))%world
  end.

(** The two dictionaries of the object agree: no key occurs twice and
    [self.prior[key]] is [None] or the list of the arguments of
    [self.prior_pdf[key]], for every key.  This is the state that
    [__init__], [reset_priors] and [add_prior] leave. *)
Definition store_ok (self : CurieOptimise) : Prop :=
  NoDup (Dict.keys (prior_pdf self)) /\
  prior self
  = map (fun kv => (fst kv, option_map args (snd kv))) (prior_pdf self).

(** [s] differs from [s0] at most in the stored arguments of the priors
    named in [ks]. *)
Definition frame (ks : list string) (s0 s : CurieOptimise) : Prop :=
  prior_pdf s = prior_pdf s0 /\
  bounds s = bounds s0 /\
  Dict.keys (prior s) = Dict.keys (prior s0) /\
  forall k, ~ In k ks -> Dict.get (prior s) k = Dict.get (prior s0) k.

(** Worlds of the replayed environment: an object and a tape. *)
Definition replay_world (s : CurieOptimise) (t : tape) : world replay :=
  mk_world (E := replay) s t.

(** The object after [add_prior(beta=(3.0, 0.1), zt=(1.0, 0.5))]. *)
Definition two_priors : CurieOptimise :=
  snd (add_prior init [("beta"%string, PyTuple [3.0; 0.1]);
                       ("zt"%string, PyTuple [1.0; 0.5])]).

(** The object after [add_prior(beta=(3.0, 0.1), zt=stats.norm())]: the
    frozen standard normal has no positional arguments. *)
Definition bare_norm_prior : CurieOptimise :=
  snd (add_prior init [("beta"%string, PyTuple [3.0; 0.1]);
                       ("zt"%string, PyFrozen (mk_rv_frozen "norm" []))]).

(** [x] lies between the two ends of a bound; [None] is no bound. *)
Definition bound_ok (b : bound) (x : float) : bool :=
  match fst b with Some lo => lo <=? x | None => true end &&
  match snd b with Some hi => x <=? hi | None => true end.

Definition within_bounds (b : list bound) (x : vec4) : Prop :=
  Forall2 (fun bd v => bound_ok bd v = true) b
    [x_beta x; x_zt x; x_dz x; x_C x].

(** A float that is NaN or a zero of either sign. *)
Definition nan_or_zero (q : float) : Prop :=
  Prim2SF q = S754_nan \/ exists s, Prim2SF q = S754_zero s.

(** ** Signs of binary64 values *)

(** [x] is NaN, or its sign bit is [s]. *)
Definition sf_signed (s : bool) (x : spec_float) : Prop :=
  match x with
  | S754_nan => True
  | S754_zero s' | S754_infinity s' | S754_finite s' _ _ => s' = s
  end.

(** [x] is NaN or has its sign bit clear: it is +0, positive or
    +infinity. *)
Definition nonneg (x : float) : Prop := sf_signed false (Prim2SF x).

(** ** Predicates on the prior store *)

(** [key] is a key of [self.prior] whose value is not [None]. *)
Definition has_prior (self : CurieOptimise) (key : string) : bool :=
  match Dict.get (prior self) key with
  | Some (Some _) => true
  | _ => false
  end.

(** The stored arguments of [key], when there are any, can be bound to
    [x0] and [sigma_x0]. *)
Definition binds_two (self : CurieOptimise) (key : string) : bool :=
  match Dict.get (prior self) key with
  | Some (Some l) => Nat.leb 2 (List.length l)
  | _ => true
  end.

(** The scale stored for [key], when there is one, is not zero. *)
Definition scale_not_zero (self : CurieOptimise) (key : string) : bool :=
  match Dict.get (prior self) key with
  | Some (Some (_ :: sigma :: _)) => negb (is_zero sigma)
  | _ => true
  end.

(** Every stored list of arguments has at least two items. *)
Definition two_arg_priors (self : CurieOptimise) : Prop :=
  forall key l,
    Dict.get (prior self) key = Some (Some l) -> (2 <= List.length l)%nat.

Definition is_tuple (v : pyobj) : bool :=
  match v with PyTuple _ => true | _ => false end.

(** The objects that [__init__], [reset_priors] and [add_prior] can
    produce. *)
Inductive constructed : CurieOptimise -> Prop :=
| constructed_init : constructed init
| constructed_reset (s : CurieOptimise) :
    constructed s -> constructed (reset_priors s)
| constructed_add (s : CurieOptimise) (kwargs : list (string * pyobj)) :
    constructed s -> constructed (snd (add_prior s kwargs)).

(** Two stored values of [self.prior[key]] that are equal or differ in
    their first item only. *)
Definition same_but_location (a b : option (option (list float))) : Prop :=
  a = b \/
  exists x y rest,
    a = Some (Some (x :: rest)) /\ b = Some (Some (y :: rest)).

(** [s] is [s0] up to the first item of stored lists of arguments. *)
Definition location_frame (s0 s : CurieOptimise) : Prop :=
  prior_pdf s = prior_pdf s0 /\
  bounds s = bounds s0 /\
  Dict.keys (prior s) = Dict.keys (prior s0) /\
  forall key,
    same_but_location (Dict.get (prior s0) key) (Dict.get (prior s) key).

(** A replayed environment whose grid ends at [xc = 2]: the spectrum of
    a centroid at or beyond it raises, as [subgrid] does for a window
    outside the grid. *)
Definition bounded_bin (window xc yc : float)
  : result (ndarray * ndarray * ndarray) :=
  if xc <? 2 then Ok ([0.5], [-1], [1]) else Raise ValueError.

Definition replay_bounded : Env := replay_env bounded_bin.

(** [x] is not below zero: NaN, a zero of either sign, positive or
    +infinity. *)
Definition sf_not_below_zero (x : spec_float) : Prop :=
  match x with
  | S754_nan | S754_zero _ => True
  | S754_infinity s | S754_finite s _ _ => s = false
  end.

(** [x] is NaN, positive or +infinity. *)
Definition sf_positive_or_nan (x : spec_float) : Prop :=
  match x with
  | S754_nan => True
  | S754_zero _ => False
  | S754_infinity s | S754_finite s _ _ => s = false
  end.

(** * Properties *)

(** ** Dictionaries *)

Lemma dict_get_set_same {V : Type} (d : Dict.t V) (k : string) (v : V) :
  Dict.get (Dict.set d k v) k = Some v.
Proof.
  induction d as [|[k' v'] r IH]; simpl.
  - now rewrite String.eqb_refl.
  - destruct (String.eqb k' k) eqn:Hk; simpl; rewrite Hk; auto.
Qed.

Lemma dict_get_set_other {V : Type} (d : Dict.t V) (k key : string) (v : V) :
  k <> key -> Dict.get (Dict.set d k v) key = Dict.get d key.
Proof.
  intros Hne. induction d as [|[k' v'] r IH]; simpl.
  - destruct (String.eqb k key) eqn:Hk; auto.
    apply String.eqb_eq in Hk. contradiction.
  - destruct (String.eqb k' k) eqn:Hk; simpl.
    + apply String.eqb_eq in Hk. subst k'.
      destruct (String.eqb k key) eqn:Hk'; auto.
      apply String.eqb_eq in Hk'. contradiction.
    + destruct (String.eqb k' key); auto.
Qed.

(** ** Registering priors *)

Lemma prior_of_value_raises (v : pyobj) :
  is_ok (prior_of_value v) = false -> prior_of_value v = Raise ValueError.
Proof.
  destruct v as [[|p [|s [|t r]]]|d|]; simpl; intros H;
    try reflexivity; discriminate.
Qed.

Lemma registered_set (self : CurieOptimise) (k key : string) (pdf : rv_frozen) :
  registered self key ->
  registered
    (set_priors self (Dict.set (prior self) k (Some (args pdf)))
       (Dict.set (prior_pdf self) k (Some pdf))) key.
Proof.
  intros [q [Hq Hp]]. unfold registered; simpl.
  destruct (string_dec k key) as [->|Hne].
  - exists pdf. now rewrite !dict_get_set_same.
  - exists q. now rewrite !dict_get_set_other.
Qed.

Lemma add_prior_keeps_registered (kwargs : list (string * pyobj)) :
  forall self key,
    registered self key -> registered (snd (add_prior self kwargs)) key.
Proof.
  induction kwargs as [|[k v] rest IH]; intros self key Hreg; simpl; auto.
  destruct (Dict.mem (prior self) k); simpl; auto.
  destruct (prior_of_value v) as [pdf|e]; simpl; auto.
  apply IH. now apply registered_set.
Qed.

Lemma add_prior_registers (kwargs : list (string * pyobj)) :
  forall self self1 key v,
    add_prior self kwargs = (Ok tt, self1) ->
    In (key, v) kwargs -> registered self1 key.
Proof.
  induction kwargs as [|[k v0] rest IH]; intros self self1 key v Hrun Hin.
  - destruct Hin.
  - simpl in Hrun.
    destruct (Dict.mem (prior self) k); [|discriminate].
    destruct (prior_of_value v0) as [pdf|e]; [|discriminate].
    destruct Hin as [Heq|Hin].
    + inversion Heq; subst k v0.
      replace self1 with (snd (add_prior
        (set_priors self (Dict.set (prior self) key (Some (args pdf)))
           (Dict.set (prior_pdf self) key (Some pdf))) rest))
        by now rewrite Hrun.
      apply add_prior_keeps_registered.
      exists pdf; simpl. now rewrite !dict_get_set_same.
    + eapply IH; eauto.
Qed.

Lemma add_prior_app (good : list (string * pyobj)) :
  forall self self1 rest,
    add_prior self good = (Ok tt, self1) ->
    add_prior self (good ++ rest) = add_prior self1 rest.
Proof.
  induction good as [|[k v] good IH]; intros self self1 rest Hrun; simpl in *.
  - now inversion Hrun.
  - destruct (Dict.mem (prior self) k); [|discriminate].
    destruct (prior_of_value v) as [pdf|e]; [|discriminate].
    now apply IH.
Qed.

(** C10.  When one keyword of [add_prior] is invalid, the call raises
    [ValueError] and the object is left as the keywords before it made
    it: each of those priors is registered. *)
Theorem add_prior_partial_update
  (self self1 : CurieOptimise) (good rest : list (string * pyobj))
  (bad : string * pyobj) :
  add_prior self good = (Ok tt, self1) ->
  invalid_prior self1 bad ->
  add_prior self (good ++ bad :: rest) = (Raise ValueError, self1) /\
  forall key v, In (key, v) good -> registered self1 key.
Proof.
  intros Hgood Hbad. split.
  - rewrite (add_prior_app good self self1 _ Hgood).
    destruct bad as [k v]; simpl. destruct Hbad as [Hk|Hv]; simpl in *.
    + now rewrite Hk.
    + destruct (Dict.mem (prior self1) k); auto.
      now rewrite (prior_of_value_raises v Hv).
  - intros key v Hin. eapply add_prior_registers; eauto.
Qed.

Lemma add_prior_partial_update_witness :
  add_prior init
    ([("beta"%string, PyTuple [3.0; 0.1])] ++
     ("gamma"%string, PyTuple [1.0; 1.0]) ::
     [("zt"%string, PyTuple [1.0; 0.5])])
  = (Raise ValueError,
     snd (add_prior init [("beta"%string, PyTuple [3.0; 0.1])])) /\
  forall key v,
    In (key, v) [("beta"%string, PyTuple [3.0; 0.1])] ->
    registered (snd (add_prior init [("beta"%string, PyTuple [3.0; 0.1])])) key.
Proof.
  apply (add_prior_partial_update init).
  - reflexivity.
  - left. reflexivity.
Defined.

(** ** The prior penalty *)

Lemma objective_routine_single (self : CurieOptimise) (key : string)
  (x x0 sigma : float) (rest : list float) :
  Dict.get (prior self) key = Some (Some (x0 :: sigma :: rest)) ->
  objective_routine self [(key, x)]
  = Ok (0 + 0.5 * sq (linalg_norm [(x - x0) / sigma])).
Proof.
  intros Hget. unfold objective_routine; simpl. now rewrite Hget.
Qed.

(** C9, as the code has it.  For a parameter with the normal prior
    (x0, sigma), sigma not zero, the penalty of a candidate [x] is the
    binary64 value of [0.5*np.linalg.norm((x - x0)/sigma)**2] added to
    the running total 0.  After [add_prior(beta=(3.0, 0.1))] the penalty
    at 3.0 is 0.0 and the penalty at 3.2 is 2.0000000000000036, the
    double next but seven above 2.0: in binary64, 3.2 - 3.0 is not 0.2. *)
Theorem penalty_normal_prior :
  (forall (self : CurieOptimise) (key : string) (x x0 sigma : float),
      Dict.mem (prior self) key = true ->
      is_zero sigma = false ->
      objective_routine
        (snd (add_prior self [(key, PyTuple [x0; sigma])])) [(key, x)]
      = Ok (0 + 0.5 * sq (linalg_norm [(x - x0) / sigma]))) /\
  objective_routine
    (snd (add_prior init [("beta"%string, PyTuple [3.0; 0.1])]))
    [("beta"%string, 3.0)] = Ok 0 /\
  objective_routine
    (snd (add_prior init [("beta"%string, PyTuple [3.0; 0.1])]))
    [("beta"%string, 3.2)] = Ok 0x1.0000000000008p+1.
Proof.
  split; [|split; reflexivity].
  intros self key x x0 sigma Hmem _. simpl. rewrite Hmem. simpl.
  apply objective_routine_single with (rest := []); simpl.
  apply dict_get_set_same.
Qed.

Lemma penalty_normal_prior_witness :
  objective_routine
    (snd (add_prior init [("zt"%string, PyTuple [1.0; 0.5])]))
    [("zt"%string, 2.0)] = Ok 2.
Proof.
  rewrite (proj1 penalty_normal_prior init "zt"%string 2.0 1.0 0.5);
    reflexivity.
Defined.

(** C9 as stated fails: the penalty at [beta = 3.2] is not 2.0. *)
Lemma penalty_at_3_2_is_not_2 :
  objective_routine
    (snd (add_prior init [("beta"%string, PyTuple [3.0; 0.1])]))
    [("beta"%string, 3.2)] <> Ok 2.0.
Proof.
  vm_compute. intros H. discriminate H.
Qed.

(** ** The objective [min_func] *)

(** C1, as the code has it.  When the misfit of the forward model is not
    finite, [min_func] returns exactly 1e99, a finite number, whatever
    the priors are; otherwise it returns that misfit plus the penalty of
    the priors, and raises what the penalty raises. *)
Theorem min_func_cases {E : Env} (self : CurieOptimise) (x : vec4)
  (kh Phi sigma_Phi : ndarray) (misfit : float) :
  objective_function
    (bouligand2009 E kh (x_beta x) (x_zt x) (x_dz x) (x_C x)) Phi sigma_Phi
  = Ok misfit ->
  (isfinite misfit = false ->
   min_func self x kh Phi sigma_Phi = Ok 1e99 /\ isfinite 1e99 = true) /\
  (isfinite misfit = true ->
   min_func self x kh Phi sigma_Phi
   = (p <- objective_routine self
             [("beta"%string, x_beta x); ("zt"%string, x_zt x);
              ("dz"%string, x_dz x); ("C"%string, x_C x)] ;;
      Ok (misfit + p))).
Proof.
  intros Hm. unfold min_func. rewrite Hm. simpl.
  split; intros Hfin; rewrite Hfin; simpl; auto.
Qed.

Lemma min_func_cases_witness :
  min_func (E := replay) init (mk_vec4 (-1) 1 10 5) [0.5] [-1] [1] = Ok 1e99.
Proof.
  apply (proj1 (min_func_cases (E := replay) init (mk_vec4 (-1) 1 10 5)
                  [0.5] [-1] [1] nan eq_refl)).
  reflexivity.
Defined.

(** C1 as stated fails: with the prior [beta = (3.0, 1e-200)] and a
    vector that the forward model fits, [min_func] returns infinity. *)
Lemma min_func_not_always_finite :
  exists v,
    min_func (E := replay)
      (snd (add_prior init [("beta"%string, PyTuple [3.0; 1e-200])]))
      (mk_vec4 3.2 1 10 5) [0.5] [-1] [1] = Ok v /\
    isfinite v = false.
Proof.
  exists infinity. split; reflexivity.
Qed.

(** ** Loops that fill a buffer *)

Section Loops.

Context {E : Env}.

Lemma set_row_app {A : Type} (pre post : list A) (p v : A) :
  forall i, List.length pre = i ->
            set_row (pre ++ p :: post) i v = Ok (pre ++ v :: post).
Proof.
  induction pre as [|h pre IH]; intros i Hi; simpl in *; subst i; auto.
  now rewrite (IH _ eq_refl).
Qed.

Lemma last_cons {A : Type} (xs : list A) (b a : A) :
  last (b :: xs) a = last xs b.
Proof.
  revert b a. induction xs as [|x xs IH]; intros b a; auto.
  change (last (b :: x :: xs) a) with (last (x :: xs) a).
  now rewrite !IH.
Qed.

Lemma np_empty_length (n : nat) : List.length (np_empty n) = n.
Proof. unfold np_empty. now rewrite length_map, length_seq. Qed.

(** A loop whose body computes a row from the index and stores it at
    that index fills the buffer with the rows, in order. *)
Lemma for_range_fill {A : Type} (f : nat -> M E A)
  (body : nat -> list A -> M E (list A)) :
  (forall i buf w,
      body i buf w = (b <- f i ;; lift (set_row buf i b))%world w) ->
  forall n lo pre post w,
    List.length pre = lo -> List.length post = n ->
    for_range_m lo n body (pre ++ post) w
    = (xs <- map_m f (seq lo n) ;; ret (pre ++ xs))%world w.
Proof.
  intros Hbody. induction n as [|n IH]; intros lo pre post w Hpre Hpost.
  - destruct post; [|discriminate]. reflexivity.
  - destruct post as [|p post]; [discriminate|]. simpl.
    unfold mbind at 1 3. rewrite Hbody. unfold mbind at 1.
    destruct (f lo w) as [[b|e] w1] eqn:Hf;
      [|unfold mbind; now rewrite Hf].
    unfold lift. rewrite (set_row_app pre post p b lo Hpre).
    replace (pre ++ b :: post) with ((pre ++ [b]) ++ post)
      by now rewrite <- app_assoc.
    rewrite IH.
    + unfold mbind, ret. rewrite Hf.
      destruct (map_m f (seq (S lo) n) w1) as [[xs|e] w2]; auto.
      now rewrite <- app_assoc.
    + rewrite length_app; simpl; lia.
    + simpl in Hpost; lia.
Qed.

(** A loop whose body advances a variable and stores its new value at
    the index records the successive values. *)
Lemma for_range_store {A : Type} (step : A -> M E A)
  (body : nat -> A * list A -> M E (A * list A)) :
  (forall i st w,
      body i st w
      = (b <- step (fst st) ;;
         buf <- lift (set_row (snd st) i b) ;;
         ret (b, buf))%world w) ->
  forall n lo pre post a w,
    List.length pre = lo -> List.length post = n ->
    for_range_m lo n body (a, pre ++ post) w
    = (xs <- iterate_m step n a ;; ret (last xs a, pre ++ xs))%world w.
Proof.
  intros Hbody. induction n as [|n IH]; intros lo pre post a w Hpre Hpost.
  - destruct post; [|discriminate]. reflexivity.
  - destruct post as [|p post]; [discriminate|]. simpl.
    unfold mbind at 1 3. rewrite Hbody. unfold mbind at 1. simpl.
    destruct (step a w) as [[b|e] w1] eqn:Hs;
      [|unfold mbind; now rewrite Hs].
    unfold mbind at 1. unfold lift.
    rewrite (set_row_app pre post p b lo Hpre). unfold ret at 1.
    replace (pre ++ b :: post) with ((pre ++ [b]) ++ post)
      by now rewrite <- app_assoc.
    rewrite IH.
    + unfold mbind, ret. rewrite Hs.
      destruct (iterate_m step n b w1) as [[xs|e] w2]; auto.
      now rewrite <- app_assoc, last_cons.
    + rewrite length_app; simpl; lia.
    + simpl in Hpost; lia.
Qed.

(** A loop whose body only advances a variable leaves the buffer as it
    was. *)
Lemma for_range_advance {A B : Type} (step : A -> M E A)
  (body : nat -> A * B -> M E (A * B)) :
  (forall i st w,
      body i st w = (b <- step (fst st) ;; ret (b, snd st))%world w) ->
  forall n lo a buf w,
    for_range_m lo n body (a, buf) w
    = (xs <- iterate_m step n a ;; ret (last xs a, buf))%world w.
Proof.
  intros Hbody. induction n as [|n IH]; intros lo a buf w.
  - reflexivity.
  - simpl. unfold mbind at 1 3. rewrite Hbody. unfold mbind at 1. simpl.
    destruct (step a w) as [[b|e] w1] eqn:Hs;
      [|unfold mbind; now rewrite Hs].
    unfold ret at 1. rewrite IH. unfold mbind, ret. rewrite Hs.
    destruct (iterate_m step n b w1) as [[xs|e] w2]; auto.
    now rewrite last_cons.
Qed.

(** When [step] cannot raise under an invariant, neither can the
    iteration. *)
Lemma iterate_m_total {A : Type} (step : A -> M E A) (I : world E -> Prop) :
  (forall a w r w', step a w = (r, w') -> I w -> I w') ->
  (forall a w, I w -> exists b w', step a w = (Ok b, w')) ->
  forall n a w, I w -> exists xs w', iterate_m step n a w = (Ok xs, w') /\ I w'.
Proof.
  intros Hinv Htot. induction n as [|n IH]; intros a w Hw; simpl.
  - exists [], w. auto.
  - destruct (Htot a w Hw) as [b [w1 Hstep]].
    destruct (IH b w1 (Hinv _ _ _ _ Hstep Hw)) as [bs [w2 [Hrest Hw2]]].
    exists (b :: bs), w2. unfold mbind, ret. now rewrite Hstep, Hrest.
Qed.

End Loops.

(** ** Batch estimation *)

Section Batch.

Context {E : Env}.

(** [optimise] reads the object and leaves the world as it found it. *)
Lemma optimise_world (window xc yc beta zt dz C : float) (w : world E) :
  snd (optimise window xc yc beta zt dz C w) = w.
Proof.
  unfold optimise, mbind, lift, call_minimize.
  destruct (spectrum E window xc yc) as [[[k Phi] sigma_Phi]|e]; reflexivity.
Qed.

Lemma map_m_pure {A B : Type} (f : A -> M E B) (w : world E) :
  forall l,
    (forall a, In a l -> exists b, f a w = (Ok b, w)) ->
    exists bs,
      map_m f l w = (Ok bs, w) /\
      List.length bs = List.length l /\
      forall i a, nth_error l i = Some a ->
                  exists b, f a w = (Ok b, w) /\ nth_error bs i = Some b.
Proof.
  induction l as [|a l IH]; intros Hok.
  - exists []. repeat split; auto. intros [|i] a H; discriminate.
  - destruct (Hok a (or_introl eq_refl)) as [b Hb].
    destruct IH as [bs [Hrun [Hlen Hnth]]].
    { intros a' Hin. apply Hok. now right. }
    exists (b :: bs). simpl. unfold mbind, ret. rewrite Hb, Hrun.
    repeat split; auto.
    intros [|i] a' Ha; simpl in *.
    + inversion Ha; subst. eauto.
    + now apply Hnth.
Qed.

(** C8.  [optimise_routine] raises [ValueError] when the two lists
    differ in length.  On two lists of the same length N whose
    centroids can each be estimated, it returns four sequences of
    length N, and entry [i] of each is the component of the vector that
    [optimise] returns at centroid [i]. *)
Theorem optimise_routine_shape (window : float) (xc_list yc_list : list float)
  (beta zt dz C : float) (w : world E) :
  (List.length xc_list <> List.length yc_list ->
   optimise_routine window xc_list yc_list beta zt dz C w
   = (Raise ValueError, w)) /\
  (List.length xc_list = List.length yc_list ->
   (forall i xc yc,
       nth_error xc_list i = Some xc -> nth_error yc_list i = Some yc ->
       is_ok (fst (optimise window xc yc beta zt dz C w)) = true) ->
   exists bs zs ds cs,
     optimise_routine window xc_list yc_list beta zt dz C w
     = (Ok [bs; zs; ds; cs], w) /\
     List.length bs = List.length xc_list /\
     List.length zs = List.length xc_list /\
     List.length ds = List.length xc_list /\
     List.length cs = List.length xc_list /\
     forall i xc yc,
       nth_error xc_list i = Some xc -> nth_error yc_list i = Some yc ->
       exists r,
         optimise window xc yc beta zt dz C w = (Ok r, w) /\
         nth_error bs i = Some (x_beta r) /\
         nth_error zs i = Some (x_zt r) /\
         nth_error ds i = Some (x_dz r) /\
         nth_error cs i = Some (x_C r)).
Proof.
  unfold optimise_routine. split.
  - intros Hne. apply Nat.eqb_neq in Hne. now rewrite Hne.
  - intros Hlen Hok. rewrite Hlen, Nat.eqb_refl. simpl.
    set (f := fun i : nat =>
                (xc <- lift (getitem xc_list i) ;;
                 yc <- lift (getitem yc_list i) ;;
                 optimise window xc yc beta zt dz C)%world).
    assert (Hcall : forall xc yc,
               is_ok (fst (optimise window xc yc beta zt dz C w)) = true ->
               exists r, optimise window xc yc beta zt dz C w = (Ok r, w)).
    { intros xc yc H.
      pose proof (optimise_world window xc yc beta zt dz C w) as Hw.
      destruct (optimise window xc yc beta zt dz C w) as [[r|e] w'];
        simpl in *; [|discriminate]. subst w'. eauto. }
    assert (Hf : forall i, In i (seq 0 (List.length yc_list)) ->
                           exists r, f i w = (Ok r, w)).
    { intros i Hin. apply in_seq in Hin.
      destruct (nth_error xc_list i) as [xc|] eqn:Hx;
        [|apply nth_error_None in Hx; lia].
      destruct (nth_error yc_list i) as [yc|] eqn:Hy;
        [|apply nth_error_None in Hy; lia].
      destruct (Hcall xc yc (Hok i xc yc Hx Hy)) as [r Hr].
      exists r. unfold f, mbind, lift, getitem. now rewrite Hx, Hy. }
    destruct (map_m_pure f w _ Hf) as [rows [Hrun [Hrows Hnth]]].
    rewrite length_seq in Hrows.
    assert (Hbody : forall i buf w0,
               optimise_routine_body window xc_list yc_list beta zt dz C
                 i buf w0
               = (b <- f i ;; lift (set_row buf i b))%world w0).
    { intros i buf w0. unfold optimise_routine_body, f, mbind, lift.
      destruct (getitem xc_list i); auto.
      destruct (getitem yc_list i); auto. }
    pose proof (for_range_fill f _ Hbody (List.length yc_list) 0 []
                  (np_empty (List.length yc_list)) w eq_refl
                  (np_empty_length _)) as Hfill.
    change ([] ++ np_empty (List.length yc_list))
      with (np_empty (List.length yc_list)) in Hfill.
    unfold mbind at 1. rewrite Hfill.
    unfold mbind at 1. rewrite Hrun. unfold ret, columns.
    exists (map x_beta rows), (map x_zt rows), (map x_dz rows),
      (map x_C rows).
    rewrite !length_map. repeat split; auto.
    intros i xc yc Hx Hy.
    assert (Hi : (i < List.length yc_list)%nat)
      by (apply nth_error_Some; congruence).
    destruct (Hnth i i) as [r [Hr Hrow]].
    { rewrite nth_error_nth' with (d := O); rewrite ?length_seq; auto.
      now rewrite seq_nth. }
    exists r. unfold f, mbind, lift, getitem in Hr. rewrite Hx, Hy in Hr.
    rewrite !nth_error_map, Hrow. auto.
Qed.

End Batch.

Lemma replay_optimise_ok (window xc yc : float) :
  is_ok (fst (optimise (E := replay) window xc yc 3 1 10 5
                (mk_world (E := replay) init (mk_tape [] [] [])))) = true.
Proof. reflexivity. Qed.

Lemma optimise_routine_shape_witness :
  exists bs zs ds cs,
    optimise_routine (E := replay) 1 [0; 1; 2] [4; 5; 6] 3 1 10 5
      (mk_world (E := replay) init (mk_tape [] [] []))
    = (Ok [bs; zs; ds; cs], mk_world (E := replay) init (mk_tape [] [] [])) /\
    List.length bs = 3%nat /\ List.length zs = 3%nat /\
    List.length ds = 3%nat /\ List.length cs = 3%nat.
Proof.
  destruct (proj2 (optimise_routine_shape (E := replay) 1 [0; 1; 2] [4; 5; 6]
                     3 1 10 5
                     (mk_world (E := replay) init (mk_tape [] [] [])))
              eq_refl (fun i xc yc _ _ => replay_optimise_ok 1 xc yc))
    as [bs [zs [ds [cs [H1 [H2 [H3 [H4 [H5 _]]]]]]]]].
  exists bs, zs, ds, cs. auto.
Defined.

(** ** The prior store under [sensitivity] *)

Lemma dict_set_keys {V : Type} (d : Dict.t V) (k : string) (v : V) :
  Dict.mem d k = true -> Dict.keys (Dict.set d k v) = Dict.keys d.
Proof.
  unfold Dict.mem, Dict.keys.
  induction d as [|[k' v'] r IH]; simpl; [discriminate|].
  destruct (String.eqb k' k); simpl; intros H; auto.
  now rewrite IH.
Qed.

Lemma dict_get_absent {V : Type} (d : Dict.t V) (k : string) :
  ~ In k (Dict.keys d) -> Dict.get d k = None.
Proof.
  unfold Dict.keys. induction d as [|[k' v'] r IH]; simpl; auto.
  intros Hn. destruct (String.eqb k' k) eqn:Hk.
  - apply String.eqb_eq in Hk. tauto.
  - apply IH. tauto.
Qed.

Lemma dict_ext {V : Type} :
  forall d d' : Dict.t V,
    Dict.keys d = Dict.keys d' ->
    NoDup (Dict.keys d) ->
    (forall k, Dict.get d k = Dict.get d' k) ->
    d = d'.
Proof.
  induction d as [|[k v] d IH]; intros [|[k' v'] d'] Hk Hnd Hget;
    try discriminate; auto.
  unfold Dict.keys in *. simpl in Hk. injection Hk as Hk1 Hk2. subst k'.
  inversion Hnd as [|? ? Hnotin Hnd']; subst.
  pose proof (Hget k) as Hv. simpl in Hv. rewrite String.eqb_refl in Hv.
  injection Hv as ->. f_equal.
  apply IH; auto.
  intros k0. destruct (String.eqb k k0) eqn:Hk0.
  - apply String.eqb_eq in Hk0. subst k0.
    rewrite (dict_get_absent d k Hnotin).
    symmetry. apply dict_get_absent. unfold Dict.keys. now rewrite <- Hk2.
  - specialize (Hget k0). simpl in Hget. now rewrite Hk0 in Hget.
Qed.

Lemma active_keys_in_keys (d : Dict.t (option rv_frozen)) (k : string) :
  In k (active_keys d) -> In k (Dict.keys d).
Proof.
  unfold active_keys, Dict.keys. intros H.
  apply in_map_iff in H. destruct H as [kv [Hk Hin]].
  apply filter_In in Hin. apply in_map_iff. exists kv. tauto.
Qed.

Lemma active_keys_get (d : Dict.t (option rv_frozen)) (k : string) :
  NoDup (Dict.keys d) ->
  In k (active_keys d) ->
  exists pdf, Dict.get d k = Some (Some pdf).
Proof.
  induction d as [|[k' o] d IH]; intros Hnd Hin.
  - destruct Hin.
  - unfold Dict.keys in Hnd. simpl in Hnd.
    inversion Hnd as [|? ? Hnotin Hnd']; subst.
    assert (Htail : In k (active_keys d) ->
                    exists pdf, Dict.get ((k', o) :: d) k = Some (Some pdf)).
    { intros Hin'. simpl. destruct (String.eqb k' k) eqn:Hk.
      - apply String.eqb_eq in Hk. subst k'.
        apply active_keys_in_keys in Hin'. contradiction.
      - now apply IH. }
    unfold active_keys in Hin. simpl in Hin. destruct o as [pdf|]; auto.
    simpl in Hin. destruct Hin as [->|Hin]; auto.
    exists pdf. simpl. now rewrite String.eqb_refl.
Qed.

Lemma store_ok_get (s : CurieOptimise) (k : string) :
  store_ok s ->
  Dict.get (prior s) k
  = option_map (option_map args) (Dict.get (prior_pdf s) k).
Proof.
  intros [_ Hp]. rewrite Hp. clear Hp.
  induction (prior_pdf s) as [|[k' o] d IH]; simpl; auto.
  destruct (String.eqb k' k); auto.
Qed.

Lemma store_ok_keys (s : CurieOptimise) :
  store_ok s -> Dict.keys (prior s) = Dict.keys (prior_pdf s).
Proof.
  intros [_ Hp]. rewrite Hp. unfold Dict.keys. rewrite map_map.
  apply map_ext. auto.
Qed.

Lemma store_ok_init : store_ok init.
Proof.
  split; [|reflexivity].
  repeat constructor; simpl; intuition discriminate.
Qed.

Lemma dict_set_map {V W : Type} (g : V -> W) (d : Dict.t V) (k : string)
  (v : V) :
  Dict.set (map (fun kv => (fst kv, g (snd kv))) d) k (g v)
  = map (fun kv => (fst kv, g (snd kv))) (Dict.set d k v).
Proof.
  induction d as [|[k' v'] d IH]; simpl; auto.
  destruct (String.eqb k' k); simpl; auto. now rewrite IH.
Qed.

(** [add_prior] keeps the two dictionaries in agreement, whether it
    returns or raises. *)
Lemma store_ok_add_prior (kwargs : list (string * pyobj)) :
  forall self, store_ok self -> store_ok (snd (add_prior self kwargs)).
Proof.
  induction kwargs as [|[k v] rest IH]; intros self Hok; simpl; auto.
  destruct (Dict.mem (prior self) k) eqn:Hmem; simpl; auto.
  destruct (prior_of_value v) as [pdf|e]; simpl; auto.
  apply IH. destruct Hok as [Hnd Hp]. split; simpl.
  - rewrite dict_set_keys; auto.
    rewrite Hp in Hmem. unfold Dict.mem in *.
    clear -Hmem. induction (prior_pdf self) as [|[k' o] d IHd]; simpl in *;
      auto. destruct (String.eqb k' k); auto.
  - rewrite Hp.
    apply (dict_set_map (option_map args) (prior_pdf self) k (Some pdf)).
Qed.

Section Sensitivity.

Context {E : Env}.

Lemma for_each_inv (I : world E -> Prop) (body : string -> M E unit) :
  forall keys,
    (forall key w r w',
        In key keys -> body key w = (r, w') -> I w -> I w') ->
    forall w r w', for_each keys body w = (r, w') -> I w -> I w'.
Proof.
  induction keys as [|key keys IH]; intros Hbody w r w' Hrun Hw; simpl in Hrun.
  - inversion Hrun; now subst.
  - unfold mbind in Hrun.
    destruct (body key w) as [[[]|e] w1] eqn:Hb.
    + eapply IH; eauto.
      * intros; eapply Hbody; eauto. now right.
      * eapply Hbody; eauto. now left.
    + inversion Hrun; subst. eapply Hbody; eauto. now left.
Qed.

Lemma for_range_m_inv {S : Type} (I : world E -> Prop)
  (body : nat -> S -> M E S) :
  (forall i s w r w', body i s w = (r, w') -> I w -> I w') ->
  forall n lo s w r w', for_range_m lo n body s w = (r, w') -> I w -> I w'.
Proof.
  intros Hbody. induction n as [|n IH]; intros lo s w r w' Hrun Hw;
    simpl in Hrun.
  - inversion Hrun; now subst.
  - unfold mbind in Hrun.
    destruct (body lo s w) as [[s1|e] w1] eqn:Hb.
    + eapply IH; eauto.
    + inversion Hrun; subst. eauto.
Qed.

(** [perturb] writes only the stored arguments of its key. *)
Lemma perturb_frame (ks : list string) (s0 : CurieOptimise) (key : string)
  (w : world E) (r : result unit) (w' : world E) :
  In key ks ->
  perturb key w = (r, w') ->
  frame ks s0 (self w) -> frame ks s0 (self w').
Proof.
  intros Hin Hrun Hfr.
  unfold perturb, mbind, get_self, draw, put_prior, raise in Hrun.
  destruct (Dict.get (prior_pdf (self w)) key) as [[pdf|]|];
    try (inversion Hrun; now subst).
  destruct (rvs E pdf (gen w)) as [x g].
  destruct (Dict.get (prior (self w)) key) as [[[|h rest]|]|] eqn:Hget;
    simpl in Hrun; inversion Hrun; subst; simpl; auto.
  destruct Hfr as [Hpdf [Hb [Hk Hoff]]]. repeat split; simpl; auto.
  - rewrite dict_set_keys; auto. unfold Dict.mem. now rewrite Hget.
  - intros k Hk'. rewrite dict_get_set_other; auto.
    intros ->. contradiction.
Qed.

Lemma sensitivity_body_frame (ks : list string) (s0 : CurieOptimise)
  (x0 : vec4) (k Phi sigma_Phi : ndarray) (sim : nat) (samples : list vec4)
  (w : world E) (r : result (list vec4)) (w' : world E) :
  sensitivity_body ks x0 k Phi sigma_Phi sim samples w = (r, w') ->
  frame ks s0 (self w) -> frame ks s0 (self w').
Proof.
  intros Hrun Hfr. unfold sensitivity_body, mbind in Hrun.
  destruct (for_each ks perturb w) as [[[]|e] w1] eqn:Hp.
  - assert (Hfr1 : frame ks s0 (self w1)).
    { eapply (for_each_inv (fun w => frame ks s0 (self w))); eauto.
      intros; eapply perturb_frame; eauto. }
    unfold draw_result, call_minimize, lift in Hrun.
    destruct (random_normal E Phi sigma_Phi (gen w1)) as [[rPhi|e] g];
      [|inversion Hrun; now subst].
    simpl in Hrun.
    destruct (minimize E _ x0 _) as [v|e]; inversion Hrun; now subst.
  - inversion Hrun; subst.
    eapply (for_each_inv (fun w => frame ks s0 (self w))); eauto.
    intros; eapply perturb_frame; eauto.
Qed.

(** The restoring loop succeeds on keys that have a distribution, and
    sets the stored arguments of each to those of its distribution. *)
Lemma restore_all :
  forall ks (w : world E),
    (forall k, In k ks ->
               (exists pdf,
                   Dict.get (prior_pdf (self w)) k = Some (Some pdf)) /\
               Dict.mem (prior (self w)) k = true) ->
    exists w',
      for_each ks restore w = (Ok tt, w') /\
      gen w' = gen w /\
      prior_pdf (self w') = prior_pdf (self w) /\
      bounds (self w') = bounds (self w) /\
      Dict.keys (prior (self w')) = Dict.keys (prior (self w)) /\
      (forall k, In k ks ->
                 Dict.get (prior (self w')) k
                 = option_map (option_map args)
                     (Dict.get (prior_pdf (self w)) k)) /\
      (forall k, ~ In k ks ->
                 Dict.get (prior (self w')) k = Dict.get (prior (self w)) k).
Proof.
  induction ks as [|key ks IH]; intros w Hks.
  - exists w. simpl. repeat split; auto. intros k [].
  - destruct (Hks key (or_introl eq_refl)) as [[pdf Hpdf] Hmem].
    set (w1 := mk_world
                 (set_priors (self w)
                    (Dict.set (prior (self w)) key (Some (args pdf)))
                    (prior_pdf (self w))) (gen w)).
    assert (Hstep : restore key w = (Ok tt, w1)).
    { unfold restore, mbind, get_self, put_prior. now rewrite Hpdf. }
    destruct (IH w1) as [w' [Hrun [Hg [Hp [Hb [Hk [Hin Hout]]]]]]].
    { intros k Hk. destruct (Hks k (or_intror Hk)) as [Hd Hm].
      split; auto. simpl. unfold Dict.mem in *.
      destruct (string_dec key k) as [->|Hne].
      - now rewrite dict_get_set_same.
      - now rewrite dict_get_set_other. }
    exists w'. simpl. unfold mbind. rewrite Hstep.
    simpl in Hp, Hb, Hk, Hin, Hout, Hg.
    repeat split; auto.
    + rewrite Hk. now apply dict_set_keys.
    + intros k [->|Hk']; destruct (in_dec string_dec k ks) as [Hi|Hn]; auto.
      rewrite (Hout _ Hn), dict_get_set_same, Hpdf. reflexivity.
    + intros k Hn. rewrite Hout by tauto.
      apply dict_get_set_other. intros ->. apply Hn. now left.
Qed.

Lemma dict_mem_in {V : Type} (d : Dict.t V) (k : string) :
  In k (Dict.keys d) -> Dict.mem d k = true.
Proof.
  unfold Dict.mem, Dict.keys.
  induction d as [|[k' v] d IH]; simpl; [tauto|].
  intros [->|Hin].
  - now rewrite String.eqb_refl.
  - destruct (String.eqb k' k); auto.
Qed.

(** C3, as the code has it.  From a state in which the stored arguments
    agree with the distributions, a call of [sensitivity] whose loop
    runs to its end leaves the object exactly as it was before the
    call (the call itself ends in [NameError]).  When an iteration
    raises, the exception leaves the function at once: the restoring
    loop is not run and the world is the one the failing iteration
    left. *)
Theorem sensitivity_restores (window xc yc : float) (nsim : nat)
  (beta zt dz C : float) (w : world E) :
  store_ok (self w) ->
  (forall ks samples w1,
      sensitivity_loop window xc yc nsim beta zt dz C w
      = (Ok (ks, samples), w1) ->
      sensitivity window xc yc nsim beta zt dz C w
      = (Raise NameError, mk_world (self w) (gen w1))) /\
  (forall e w1,
      sensitivity_loop window xc yc nsim beta zt dz C w = (Raise e, w1) ->
      sensitivity window xc yc nsim beta zt dz C w = (Raise e, w1)).
Proof.
  intros Hok. split.
  - intros ks samples w1 Hloop.
    unfold sensitivity, mbind at 1. rewrite Hloop. simpl.
    unfold sensitivity_loop, mbind, get_self, lift, ret in Hloop.
    destruct (spectrum E window xc yc) as [[[k Phi] sigma_Phi]|e];
      [|discriminate].
    destruct (for_range_m 0 nsim _ (np_empty nsim) w) as [[smp|e] w1']
      eqn:Hrun; [|discriminate].
    inversion Hloop; subst ks smp w1'. clear Hloop.
    set (ks := active_keys (prior_pdf (self w))) in *.
    assert (Hfr : frame ks (self w) (self w1)).
    { eapply (for_range_m_inv (fun w' => frame ks (self w) (self w')));
        eauto.
      - intros; eapply sensitivity_body_frame; eauto.
      - repeat split; auto. }
    destruct Hfr as [Hpdf [Hb [Hk Hoff]]].
    pose proof Hok as [Hnd _].
    destruct (restore_all ks w1)
      as [w2 [Hres [Hg [Hp2 [Hb2 [Hk2 [Hin Hout]]]]]]].
    { intros k0 Hk0. rewrite Hpdf. split.
      - now apply active_keys_get.
      - apply dict_mem_in. rewrite Hk, (store_ok_keys _ Hok).
        now apply active_keys_in_keys. }
    unfold mbind. rewrite Hres. unfold raise. f_equal.
    destruct w2 as [s2 g2]. simpl in *. subst g2. f_equal.
    assert (Hprior : prior s2 = prior (self w)).
    { apply dict_ext.
      - congruence.
      - rewrite Hk2, Hk, (store_ok_keys _ Hok). exact Hnd.
      - intros k0. destruct (in_dec string_dec k0 ks) as [Hi|Hn].
        + rewrite (Hin _ Hi), Hpdf. symmetry. now apply store_ok_get.
        + rewrite (Hout _ Hn). now apply Hoff. }
    destruct s2, (self w). simpl in *. congruence.
  - intros e w1 Hloop. unfold sensitivity, mbind at 1. now rewrite Hloop.
Qed.

(** C2.  [sensitivity] never returns: whatever its arguments and the
    world, it ends by raising. *)
Theorem sensitivity_never_returns (window xc yc : float) (nsim : nat)
  (beta zt dz C : float) (w : world E) :
  is_ok (fst (sensitivity window xc yc nsim beta zt dz C w)) = false.
Proof.
  unfold sensitivity, mbind, raise.
  destruct (sensitivity_loop window xc yc nsim beta zt dz C w)
    as [[ks|e] w1]; auto.
  destruct (for_each (fst ks) restore w1) as [[[]|e] w2]; auto.
Qed.

End Sensitivity.

(** On the replayed environment, without priors and with one iteration,
    the loop of [sensitivity] completes and the call raises
    [NameError]. *)
Example sensitivity_replay_NameError :
  fst (sensitivity (E := replay) 1 0 0 1 3 1 10 5
         (replay_world init (mk_tape [] [] [])))
  = Raise NameError.
Proof. reflexivity. Qed.

Lemma sensitivity_restores_witness :
  sensitivity (E := replay) 1 0 0 2 3 1 10 5
    (replay_world two_priors (mk_tape [] [] [2.5; 0.7; 3.5; 1.2]))
  = (Raise NameError, replay_world two_priors (mk_tape [] [] [])).
Proof.
  destruct (sensitivity_loop (E := replay) 1 0 0 2 3 1 10 5
              (replay_world two_priors (mk_tape [] [] [2.5; 0.7; 3.5; 1.2])))
    as [[[ks smp]|e] w1] eqn:Hloop.
  - rewrite (proj1 (sensitivity_restores (E := replay) 1 0 0 2 3 1 10 5
                      (replay_world two_priors
                         (mk_tape [] [] [2.5; 0.7; 3.5; 1.2]))
                      (store_ok_add_prior _ init store_ok_init))
               ks smp w1 Hloop).
    vm_compute in Hloop. inversion Hloop. reflexivity.
  - vm_compute in Hloop. discriminate Hloop.
Defined.

(** C3 as stated fails when an iteration raises.  With a normal prior on
    [beta] and the frozen [stats.norm()] (no positional arguments) on
    [zt], the first iteration overwrites the location of [beta] with the
    draw 2.5 and then raises [IndexError] at [zt]; the call ends there
    and the location of [beta] stays 2.5. *)
Lemma sensitivity_failure_keeps_perturbation :
  let w := replay_world bare_norm_prior (mk_tape [] [] [2.5; 0.7]) in
  let r := sensitivity (E := replay) 1 0 0 2 3 1 10 5 w in
  fst r = Raise IndexError /\
  Dict.get (prior (self w)) "beta" = Some (Some [3.0; 0.1]) /\
  Dict.get (prior (self (snd r))) "beta" = Some (Some [2.5; 0.1]) /\
  prior (self (snd r)) <> prior (self w).
Proof.
  repeat split; try reflexivity. vm_compute. intros H. discriminate H.
Qed.

(** ** Binary64 facts used by the sampler *)

Lemma zero_div (y : float) : nan_or_zero (0 / y).
Proof.
  unfold nan_or_zero. rewrite div_spec.
  change (Prim2SF 0) with (S754_zero false).
  destruct (Prim2SF y) as [s|s| |s m e]; simpl; eauto.
Qed.

Lemma py_min_nan_or_zero (q : float) : nan_or_zero q -> py_min q 1 = q.
Proof.
  intros H. unfold py_min. rewrite ltb_spec.
  change (Prim2SF 1) with (S754_finite false 4503599627370496 (-52)).
  destruct H as [H|[s H]]; rewrite H; reflexivity.
Qed.

Lemma positive_not_le (u q : float) :
  (0 <? u) = true -> nan_or_zero q -> (u <=? q) = false.
Proof.
  rewrite ltb_spec, leb_spec.
  change (Prim2SF 0) with (S754_zero false).
  intros Hu [H|[s H]]; rewrite H;
    destruct (Prim2SF u) as [su|su| |su m e]; simpl in *;
    try discriminate; try reflexivity;
    destruct su; try discriminate; reflexivity.
Qed.

Lemma SFcompare_finite_antisym (m1 m2 : positive) (e1 e2 : Z) :
  SFcompare (S754_finite false m2 e2) (S754_finite false m1 e1)
  = option_map CompOpp
      (SFcompare (S754_finite false m1 e1) (S754_finite false m2 e2)).
Proof.
  unfold SFcompare. simpl option_map. f_equal.
  rewrite (Z.compare_antisym e1 e2).
  destruct (e1 ?= e2)%Z; simpl; auto.
  now rewrite (Pos.compare_cont_antisym m1 m2 Eq).
Qed.

(** [max(P0, 1e-99)] is at least 1e-99 unless [P0] is NaN. *)
Lemma py_max_floor (p : float) :
  is_nan p = false -> (1e-99 <=? py_max p 1e-99) = true.
Proof.
  unfold py_max, is_nan. intros Hnan.
  destruct (p <? 1e-99) eqn:Hlt; [reflexivity|].
  rewrite ltb_spec in Hlt. rewrite leb_spec.
  rewrite FloatAxioms.eqb_spec in Hnan.
  change (Prim2SF 1e-99)
    with (S754_finite false 4925250774549310 (-381)) in *.
  unfold SFltb, SFleb, SFeqb in *.
  destruct (Prim2SF p) as [s|s| |s m e].
  - destruct s; cbn in Hlt; discriminate.
  - destruct s; cbn in Hlt; [discriminate|reflexivity].
  - cbn in Hnan. discriminate.
  - destruct s; [cbn in Hlt; discriminate|].
    rewrite SFcompare_finite_antisym.
    destruct (SFcompare (S754_finite false m e)
                (S754_finite false 4925250774549310 (-381)))
      as [[]|] eqn:Hc; try discriminate; reflexivity.
Qed.

(** ** The Metropolis-Hastings sampler *)

Section Sampler.

Context {E : Env}.

(** A step that cannot raise and acts on the generator alone yields a
    run determined by the generator. *)
Lemma iterate_m_det {A : Type} (step : A -> M E A) (s : CurieOptimise)
  (next : rng E -> A -> A) (adv : rng E -> rng E) :
  (forall a g, step a (mk_world s g) = (Ok (next g a), mk_world s (adv g))) ->
  forall n a g,
  exists xs,
    iterate_m step n a (mk_world s g)
    = (Ok xs, mk_world s (Nat.iter n adv g)) /\
    List.length xs = n /\
    forall i prev cur,
      nth_error (a :: xs) i = Some prev ->
      nth_error xs i = Some cur ->
      cur = next (Nat.iter i adv g) prev.
Proof.
  intros Hstep. induction n as [|n IH]; intros a g.
  - exists []. repeat split; auto.
    intros [|i] prev cur _ H; discriminate H.
  - destruct (IH (next g a) (adv g)) as [xs [Hrun [Hlen Hnth]]].
    exists (next g a :: xs). split; [|split].
    + simpl iterate_m. unfold mbind, ret. rewrite Hstep, Hrun.
      now rewrite Nat.iter_succ_r.
    + simpl. now rewrite Hlen.
    + intros [|i] prev cur Hp Hc; simpl in Hp, Hc.
      * now inversion Hp; inversion Hc; subst.
      * rewrite Nat.iter_succ_r. now apply Hnth.
Qed.

Variable x_scale : vec4.
Variables k Phi sigma_Phi : ndarray.

Lemma burnin_step_run (s : CurieOptimise) (g : rng E) (x0 : vec4)
  (m0 m1 : float) :
  min_func s x0 k Phi sigma_Phi = Ok m0 ->
  min_func s (propose x0 (fst (random_normal4 E g)) x_scale) k Phi sigma_Phi
  = Ok m1 ->
  burnin_step x_scale k Phi sigma_Phi x0 (mk_world s g)
  = (Ok (if np_exp E ((- m0) / 1000) <? np_exp E ((- m1) / 1000)
         then propose x0 (fst (random_normal4 E g)) x_scale else x0),
     mk_world s (snd (random_normal4 E g))).
Proof.
  unfold burnin_step, mbind, draw, call_min_func, ret. simpl.
  destruct (random_normal4 E g) as [z g1]. simpl.
  now intros -> ->.
Qed.

Lemma sampling_step_run (s : CurieOptimise) (g : rng E) (x0 : vec4)
  (m0 m1 : float) :
  min_func s x0 k Phi sigma_Phi = Ok m0 ->
  min_func s (propose x0 (fst (random_normal4 E g)) x_scale) k Phi sigma_Phi
  = Ok m1 ->
  sampling_step x_scale k Phi sigma_Phi x0 (mk_world s g)
  = (Ok (if fst (random_rand E (snd (random_normal4 E g)))
            <=? acceptance m0 m1
         then propose x0 (fst (random_normal4 E g)) x_scale else x0),
     mk_world s (snd (random_rand E (snd (random_normal4 E g))))).
Proof.
  unfold sampling_step, mbind, draw, call_min_func, ret. simpl.
  destruct (random_normal4 E g) as [z g1]. simpl.
  intros -> ->. simpl.
  destruct (random_rand E g1) as [u g2]. reflexivity.
Qed.

Lemma is_ok_inv {A : Type} (r : result A) :
  is_ok r = true -> exists a, r = Ok a.
Proof. destruct r; [eauto|discriminate]. Qed.

(** The burn-in loop returns, with the buffer and the object as they
    were. *)
Lemma burnin_phase_returns (s : CurieOptimise) (burnin : nat) (x0 : vec4)
  (samples : list vec4) (g : rng E) :
  (forall x, is_ok (min_func s x k Phi sigma_Phi) = true) ->
  exists xb gb,
    burnin_phase x_scale k Phi sigma_Phi burnin (x0, samples) (mk_world s g)
    = (Ok (xb, samples), mk_world s gb).
Proof.
  intros Htot.
  destruct (iterate_m_total (burnin_step x_scale k Phi sigma_Phi)
              (fun w => self w = s)) with (n := burnin) (a := x0)
              (w := mk_world s g) as [xs [w' [Hrun Hw']]]; auto.
  - intros a [s0 g0] r w1 Hstep Hs. simpl in Hs. subst s0.
    destruct (is_ok_inv _ (Htot a)) as [m0 Hm0].
    destruct (is_ok_inv _
                (Htot (propose a (fst (random_normal4 E g0)) x_scale)))
      as [m1 Hm1].
    rewrite (burnin_step_run s g0 a m0 m1 Hm0 Hm1) in Hstep.
    now inversion Hstep.
  - intros a [s0 g0] Hs. simpl in Hs. subst s0.
    destruct (is_ok_inv _ (Htot a)) as [m0 Hm0].
    destruct (is_ok_inv _
                (Htot (propose a (fst (random_normal4 E g0)) x_scale)))
      as [m1 Hm1].
    rewrite (burnin_step_run s g0 a m0 m1 Hm0 Hm1). eauto.
  - exists (last xs x0), (gen w'). unfold burnin_phase.
    rewrite (for_range_advance (burnin_step x_scale k Phi sigma_Phi)
               (burnin_body x_scale k Phi sigma_Phi)) by reflexivity.
    unfold mbind. rewrite Hrun. destruct w' as [s' g']. simpl in *.
    now subst s'.
Qed.

Lemma sampling_phase_run (s : CurieOptimise) (nsim : nat) (x0 : vec4)
  (g : rng E) :
  (forall x, is_ok (min_func s x k Phi sigma_Phi) = true) ->
  exists xs,
    sampling_phase x_scale k Phi sigma_Phi nsim (x0, np_empty nsim)
      (mk_world s g)
    = (Ok (last xs x0, xs),
       mk_world s
         (Nat.iter nsim
            (fun g => snd (random_rand E (snd (random_normal4 E g)))) g)) /\
    List.length xs = nsim /\
    forall i prev cur,
      nth_error (x0 :: xs) i = Some prev ->
      nth_error xs i = Some cur ->
      exists m0 m1,
        let gi := Nat.iter i
                    (fun g => snd (random_rand E (snd (random_normal4 E g))))
                    g in
        let x1 := propose prev (fst (random_normal4 E gi)) x_scale in
        let u := fst (random_rand E (snd (random_normal4 E gi))) in
        let P0 := py_max (np_exp E (- m0)) 1e-99 in
        let P := py_min (np_exp E (- m1) / P0) 1 in
        min_func s prev k Phi sigma_Phi = Ok m0 /\
        min_func s x1 k Phi sigma_Phi = Ok m1 /\
        (is_nan (np_exp E (- m0)) = false -> (1e-99 <=? P0) = true) /\
        ((u <=? P) = true -> cur = x1) /\
        ((u <=? P) = false -> cur = prev).
Proof.
  intros Htot.
  set (value := fun x => match min_func s x k Phi sigma_Phi with
                         | Ok m => m | Raise _ => 0 end).
  assert (Hvalue : forall x, min_func s x k Phi sigma_Phi = Ok (value x)).
  { intros x. unfold value. destruct (is_ok_inv _ (Htot x)) as [m ->]. auto. }
  set (next := fun (g : rng E) (x : vec4) =>
                 let x1 := propose x (fst (random_normal4 E g)) x_scale in
                 if fst (random_rand E (snd (random_normal4 E g)))
                    <=? acceptance (value x) (value x1)
                 then x1 else x).
  destruct (iterate_m_det (sampling_step x_scale k Phi sigma_Phi) s next
              (fun g => snd (random_rand E (snd (random_normal4 E g))))
              (fun a g0 => sampling_step_run s g0 a _ _ (Hvalue _) (Hvalue _))
              nsim x0 g) as [xs [Hrun [Hlen Hnth]]].
  exists xs. split; [|split; auto].
  - unfold sampling_phase.
    pose proof (for_range_store (sampling_step x_scale k Phi sigma_Phi)
                  (sampling_body x_scale k Phi sigma_Phi)
                  (fun _ _ _ => eq_refl) nsim 0 [] (np_empty nsim) x0
                  (mk_world s g) eq_refl (np_empty_length nsim)) as Hloop.
    change ([] ++ np_empty nsim) with (np_empty nsim) in Hloop.
    etransitivity; [exact Hloop|]. unfold mbind. now rewrite Hrun.
  - intros i prev cur Hp Hc. specialize (Hnth i prev cur Hp Hc).
    exists (value prev),
      (value (propose prev
                (fst (random_normal4 E
                        (Nat.iter i
                           (fun g => snd (random_rand E
                                            (snd (random_normal4 E g))))
                           g))) x_scale)).
    cbv zeta. split; [apply Hvalue|]. split; [apply Hvalue|].
    split; [apply py_max_floor|].
    unfold next, acceptance in Hnth.
    split; intros Hcmp; now rewrite Hcmp in Hnth.
Qed.

Lemma min_func_sentinel (s : CurieOptimise) (x : vec4) (m : float) :
  objective_function
    (bouligand2009 E k (x_beta x) (x_zt x) (x_dz x) (x_C x)) Phi sigma_Phi
  = Ok m ->
  isfinite m = false ->
  min_func s x k Phi sigma_Phi = Ok 1e99.
Proof.
  intros Hm Hfin. unfold min_func. rewrite Hm. simpl. now rewrite Hfin.
Qed.

(** C5, as the code has it.  Let the proposal [x1] have a forward
    misfit that is not finite, with [np.exp] never negative and zero
    below -746.  In a burn-in iteration [x0] is kept.  In a sampling
    iteration [x0] is kept whenever the uniform draw is greater than
    zero. *)
Theorem invalid_proposal_rejected (s : CurieOptimise) (g : rng E)
  (x0 : vec4) (m0 m : float) :
  (forall x, (x <=? -746) = true -> np_exp E x = 0) ->
  (forall x, (np_exp E x <? 0) = false) ->
  let x1 := propose x0 (fst (random_normal4 E g)) x_scale in
  let u := fst (random_rand E (snd (random_normal4 E g))) in
  min_func s x0 k Phi sigma_Phi = Ok m0 ->
  objective_function
    (bouligand2009 E k (x_beta x1) (x_zt x1) (x_dz x1) (x_C x1))
    Phi sigma_Phi = Ok m ->
  isfinite m = false ->
  fst (burnin_step x_scale k Phi sigma_Phi x0 (mk_world s g)) = Ok x0 /\
  ((0 <? u) = true ->
   fst (sampling_step x_scale k Phi sigma_Phi x0 (mk_world s g)) = Ok x0).
Proof.
  intros Hunder Hnonneg x1 u Hm0 Hm Hfin.
  pose proof (min_func_sentinel s x1 m Hm Hfin) as Hm1.
  split.
  - rewrite (burnin_step_run s g x0 m0 1e99 Hm0 Hm1). cbn [fst].
    rewrite (Hunder (opp 1e99 / 1000) eq_refl).
    now rewrite Hnonneg.
  - intros Hu. rewrite (sampling_step_run s g x0 m0 1e99 Hm0 Hm1). cbn [fst].
    fold u. unfold acceptance.
    rewrite (Hunder (opp 1e99) eq_refl).
    rewrite (py_min_nan_or_zero _ (zero_div _)).
    now rewrite (positive_not_le u _ Hu (zero_div _)).
Qed.

(** A sampling iteration adopts the proposal as it is whenever the
    draw passes the test: no bound is applied to it. *)
Lemma sampling_step_adopts (s : CurieOptimise) (g : rng E) (x0 : vec4)
  (m0 m1 : float) :
  let x1 := propose x0 (fst (random_normal4 E g)) x_scale in
  let u := fst (random_rand E (snd (random_normal4 E g))) in
  min_func s x0 k Phi sigma_Phi = Ok m0 ->
  min_func s x1 k Phi sigma_Phi = Ok m1 ->
  (u <=? acceptance m0 m1) = true ->
  fst (sampling_step x_scale k Phi sigma_Phi x0 (mk_world s g)) = Ok x1.
Proof.
  intros x1 u Hm0 Hm1 Hacc.
  rewrite (sampling_step_run s g x0 m0 m1 Hm0 Hm1). cbn [fst].
  fold u. now rewrite Hacc.
Qed.

(** C7.  Each burn-in iteration compares [exp(-min_func(x0)/1000)] with
    [exp(-min_func(x1)/1000)] and takes the proposal exactly when the
    second is greater.  The loop draws nothing but the proposals: the
    generator it leaves is the one that [burnin] draws of
    [np.random.normal(size=4)] leave.  The buffer [samples] and the
    object come out as they went in. *)
Theorem burnin_phase_greedy (s : CurieOptimise) (burnin : nat) (x0 : vec4)
  (samples : list vec4) (g : rng E) :
  (forall x, is_ok (min_func s x k Phi sigma_Phi) = true) ->
  exists xs,
    burnin_phase x_scale k Phi sigma_Phi burnin (x0, samples) (mk_world s g)
    = (Ok (last xs x0, samples),
       mk_world s (Nat.iter burnin (fun g => snd (random_normal4 E g)) g)) /\
    List.length xs = burnin /\
    forall i prev cur,
      nth_error (x0 :: xs) i = Some prev ->
      nth_error xs i = Some cur ->
      exists m0 m1,
        let gi := Nat.iter i (fun g => snd (random_normal4 E g)) g in
        let x1 := propose prev (fst (random_normal4 E gi)) x_scale in
        let P0 := np_exp E ((- m0) / 1000) in
        let P1 := np_exp E ((- m1) / 1000) in
        min_func s prev k Phi sigma_Phi = Ok m0 /\
        min_func s x1 k Phi sigma_Phi = Ok m1 /\
        ((P0 <? P1) = true -> cur = x1) /\
        ((P0 <? P1) = false -> cur = prev).
Proof.
  intros Htot.
  set (value := fun x => match min_func s x k Phi sigma_Phi with
                         | Ok m => m | Raise _ => 0 end).
  assert (Hvalue : forall x, min_func s x k Phi sigma_Phi = Ok (value x)).
  { intros x. unfold value. destruct (is_ok_inv _ (Htot x)) as [m ->]. auto. }
  set (next := fun (g : rng E) (x : vec4) =>
                 let x1 := propose x (fst (random_normal4 E g)) x_scale in
                 if np_exp E ((- value x) / 1000)
                    <? np_exp E ((- value x1) / 1000)
                 then x1 else x).
  destruct (iterate_m_det (burnin_step x_scale k Phi sigma_Phi) s next
              (fun g => snd (random_normal4 E g))
              (fun a g0 => burnin_step_run s g0 a _ _ (Hvalue _) (Hvalue _))
              burnin x0 g) as [xs [Hrun [Hlen Hnth]]].
  exists xs. split; [|split; auto].
  - unfold burnin_phase.
    rewrite (for_range_advance (burnin_step x_scale k Phi sigma_Phi)
               (burnin_body x_scale k Phi sigma_Phi)) by reflexivity.
    unfold mbind. now rewrite Hrun.
  - intros i prev cur Hp Hc. specialize (Hnth i prev cur Hp Hc).
    exists (value prev), (value (propose prev (fst (random_normal4 E
      (Nat.iter i (fun g => snd (random_normal4 E g)) g))) x_scale)).
    simpl. repeat split; auto; unfold next in Hnth; intros Hcmp;
      now rewrite Hcmp in Hnth.
Qed.


End Sampler.

(** C6.  On a spectrum where [min_func] does not raise,
    [metropolis_hastings] returns four sequences of [nsim] entries, the
    columns of the recorded states.  Entry [i] comes from the state
    before it (the burn-in result for [i = 0], entry [i - 1] otherwise)
    by one sampling iteration: with [P0] floored at 1e-99 and
    [P = min(P1/P0, 1)], it is the proposal when [u <= P] and the
    previous state when not. *)
Theorem metropolis_hastings_sampling {E : Env} (window xc yc : float)
  (nsim burnin : nat) (scale : option vec4) (beta zt dz C : float)
  (s : CurieOptimise) (g : rng E) (k Phi sigma_Phi : ndarray) :
  spectrum E window xc yc = Ok (k, Phi, sigma_Phi) ->
  (forall x, is_ok (min_func s x k Phi sigma_Phi) = true) ->
  let x_scale := match scale with Some v => v | None => np_ones4 end in
  let adv := fun g => snd (random_rand E (snd (random_normal4 E g))) in
  exists xb gb xs,
    burnin_phase x_scale k Phi sigma_Phi burnin
      (mk_vec4 beta zt dz C, np_empty nsim) (mk_world s g)
    = (Ok (xb, np_empty nsim), mk_world s gb) /\
    metropolis_hastings window xc yc nsim burnin scale beta zt dz C
      (mk_world s g)
    = (Ok [map x_beta xs; map x_zt xs; map x_dz xs; map x_C xs],
       mk_world s (Nat.iter nsim adv gb)) /\
    List.length xs = nsim /\
    Forall (fun col : ndarray => List.length col = nsim)
      [map x_beta xs; map x_zt xs; map x_dz xs; map x_C xs] /\
    forall i prev cur,
      nth_error (xb :: xs) i = Some prev ->
      nth_error xs i = Some cur ->
      exists m0 m1,
        let gi := Nat.iter i adv gb in
        let x1 := propose prev (fst (random_normal4 E gi)) x_scale in
        let u := fst (random_rand E (snd (random_normal4 E gi))) in
        let P0 := py_max (np_exp E (- m0)) 1e-99 in
        let P := py_min (np_exp E (- m1) / P0) 1 in
        min_func s prev k Phi sigma_Phi = Ok m0 /\
        min_func s x1 k Phi sigma_Phi = Ok m1 /\
        (is_nan (np_exp E (- m0)) = false -> (1e-99 <=? P0) = true) /\
        ((u <=? P) = true -> cur = x1) /\
        ((u <=? P) = false -> cur = prev).
Proof.
  intros Hsp Htot x_scale adv.
  destruct (burnin_phase_returns x_scale k Phi sigma_Phi s burnin
              (mk_vec4 beta zt dz C) (np_empty nsim) g Htot)
    as [xb [gb Hburn]].
  destruct (sampling_phase_run x_scale k Phi sigma_Phi s nsim xb gb Htot)
    as [xs [Hsamp [Hlen Hnth]]].
  exists xb, gb, xs.
  split; [exact Hburn|]. split; [|split; [exact Hlen|split]].
  - unfold metropolis_hastings, mbind, lift. rewrite Hsp.
    fold x_scale. rewrite Hburn, Hsamp. reflexivity.
  - repeat constructor; now rewrite length_map.
  - exact Hnth.
Qed.

(** C4, as the code has it.  [optimise] passes the bounds of the object
    to the minimiser: when the minimiser keeps within the bounds it is
    given, the vector that [optimise] returns has [beta], [zt] and [dz]
    at or above zero, and [C] is free.  The sampler applies no bound: a
    proposal that passes the acceptance test becomes the state as it
    is. *)
Theorem optimise_respects_bounds {E : Env} :
  ((forall f x0 r,
       minimize E f x0 init_bounds = Ok r -> within_bounds init_bounds r) ->
   forall (window xc yc beta zt dz C : float) (w : world E) r w',
     bounds (self w) = init_bounds ->
     optimise window xc yc beta zt dz C w = (Ok r, w') ->
     (0 <=? x_beta r) = true /\ (0 <=? x_zt r) = true /\
     (0 <=? x_dz r) = true) /\
  (forall (x_scale : vec4) (k Phi sigma_Phi : ndarray) (s : CurieOptimise)
          (g : rng E) (x0 : vec4) (m0 m1 : float),
      let x1 := propose x0 (fst (random_normal4 E g)) x_scale in
      let u := fst (random_rand E (snd (random_normal4 E g))) in
      min_func s x0 k Phi sigma_Phi = Ok m0 ->
      min_func s x1 k Phi sigma_Phi = Ok m1 ->
      (u <=? acceptance m0 m1) = true ->
      fst (sampling_step x_scale k Phi sigma_Phi x0 (mk_world s g)) = Ok x1).
Proof.
  split.
  - intros Hmin window xc yc beta zt dz C w r w' Hb Hrun.
    unfold optimise, mbind, lift, call_minimize in Hrun.
    destruct (spectrum E window xc yc) as [[[k Phi] sigma_Phi]|e];
      [|discriminate].
    rewrite Hb in Hrun.
    destruct (minimize E _ _ init_bounds) as [v|e] eqn:Hv; [|discriminate].
    inversion Hrun; subst v w'. apply Hmin in Hv.
    unfold within_bounds, init_bounds in Hv. simpl in Hv.
    inversion Hv as [|? ? ? ? H1 Hv1]; subst.
    inversion Hv1 as [|? ? ? ? H2 Hv2]; subst.
    inversion Hv2 as [|? ? ? ? H3 Hv3]; subst.
    unfold bound_ok in H1, H2, H3. simpl in H1, H2, H3.
    rewrite andb_true_r in H1, H2, H3. auto.
  - intros. now apply sampling_step_adopts with (m0 := m0) (m1 := m1).
Qed.

(** ** Runs on the replayed environment *)

Lemma replay_min_func_total (x : vec4) :
  is_ok (min_func (E := replay) init x [0.5] [-1] [1]) = true.
Proof.
  unfold min_func. simpl. unfold linear_model.
  destruct (x_beta x <? 0); simpl.
  - reflexivity.
  - match goal with |- context [isfinite ?m] => destruct (isfinite m) end;
      reflexivity.
Qed.

Lemma step_exp_underflow (x : float) : (x <=? -746) = true -> step_exp x = 0.
Proof. intros H. unfold step_exp. now rewrite H. Qed.

Lemma step_exp_nonneg (x : float) : (step_exp x <? 0) = false.
Proof.
  unfold step_exp.
  destruct (x <=? -746); [reflexivity|].
  destruct (x =? 0); [reflexivity|].
  destruct (x <? 0); [reflexivity|].
  destruct (0 <? x); reflexivity.
Qed.

Lemma one_shot_minimize_bounds (f : vec4 -> result float) (x0 r : vec4) :
  one_shot_minimize f x0 init_bounds = Ok r -> within_bounds init_bounds r.
Proof.
  unfold one_shot_minimize. destruct (f x0) as [m|e]; simpl; [|discriminate].
  intros H. inversion H; subst r. clear H.
  unfold within_bounds, init_bounds, onto_bounds, bound_ok, raise_to; simpl.
  repeat constructor; simpl; rewrite ?andb_true_r;
    match goal with
    | |- (0 <=? (if ?c then _ else _)) = true =>
        destruct c eqn:Hc; [exact Hc|reflexivity]
    end.
Qed.

Lemma burnin_phase_greedy_witness :
  exists xs,
    burnin_phase (E := replay) np_ones4 [0.5] [-1] [1] 2
      (mk_vec4 3 1 10 5, np_empty (E := replay) 1)
      (replay_world init
         (mk_tape [mk_vec4 0 (-2) 0 (-2); mk_vec4 1 0 0 0] [0.5] []))
    = (Ok (last xs (mk_vec4 3 1 10 5), np_empty (E := replay) 1),
       replay_world init (mk_tape [] [0.5] [])) /\
    List.length xs = 2%nat.
Proof.
  destruct (burnin_phase_greedy (E := replay) np_ones4 [0.5] [-1] [1] init 2
              (mk_vec4 3 1 10 5) (np_empty (E := replay) 1)
              (mk_tape [mk_vec4 0 (-2) 0 (-2); mk_vec4 1 0 0 0] [0.5] [])
              replay_min_func_total) as [xs [Hrun [Hlen _]]].
  exists xs. split; [exact Hrun|exact Hlen].
Defined.

Lemma metropolis_hastings_sampling_witness :
  exists xs w',
    metropolis_hastings (E := replay) 1 0 0 2 1 None 3 1 10 5
      (replay_world init
         (mk_tape [mk_vec4 1 0 0 0; mk_vec4 0 (-2) 0 (-2); mk_vec4 (-9) 0 0 0]
            [0.5; 0.9] []))
    = (Ok [map x_beta xs; map x_zt xs; map x_dz xs; map x_C xs], w') /\
    List.length xs = 2%nat.
Proof.
  destruct (metropolis_hastings_sampling (E := replay) 1 0 0 2 1 None
              3 1 10 5 init
              (mk_tape
                 [mk_vec4 1 0 0 0; mk_vec4 0 (-2) 0 (-2); mk_vec4 (-9) 0 0 0]
                 [0.5; 0.9] [])
              [0.5] [-1] [1] eq_refl replay_min_func_total)
    as [xb [gb [xs [_ [Hrun [Hlen _]]]]]].
  exists xs. eexists. split; [exact Hrun|exact Hlen].
Defined.

Lemma invalid_proposal_rejected_witness :
  fst (burnin_step (E := replay) np_ones4 [0.5] [-1] [1] (mk_vec4 3 1 10 5)
         (replay_world init (mk_tape [mk_vec4 (-4) 0 0 0] [0.5] [])))
  = Ok (mk_vec4 3 1 10 5) /\
  fst (sampling_step (E := replay) np_ones4 [0.5] [-1] [1] (mk_vec4 3 1 10 5)
         (replay_world init (mk_tape [mk_vec4 (-4) 0 0 0] [0.5] [])))
  = Ok (mk_vec4 3 1 10 5).
Proof.
  destruct (invalid_proposal_rejected (E := replay) np_ones4 [0.5] [-1] [1]
              init (mk_tape [mk_vec4 (-4) 0 0 0] [0.5] [])
              (mk_vec4 3 1 10 5) 0 nan
              step_exp_underflow step_exp_nonneg eq_refl eq_refl eq_refl)
    as [Hburn Hsamp].
  split; [exact Hburn|exact (Hsamp eq_refl)].
Defined.

(** C5 as stated fails at the draw [u = 0.0], which [np.random.rand]
    can return: the proposal (-1, 1, 10, 5), whose forward misfit is
    NaN, has [P = 0], passes [u <= P] and is recorded. *)
Lemma invalid_proposal_adopted_at_zero_draw :
  let w := replay_world init (mk_tape [mk_vec4 (-4) 0 0 0] [0] []) in
  propose (mk_vec4 3 1 10 5) (fst (tape_normal4 (gen w))) np_ones4
  = mk_vec4 (-1) 1 10 5 /\
  (exists m,
      objective_function (bouligand2009 replay [0.5] (-1) 1 10 5) [-1] [1]
      = Ok m /\ isfinite m = false) /\
  fst (sampling_step (E := replay) np_ones4 [0.5] [-1] [1]
         (mk_vec4 3 1 10 5) w) = Ok (mk_vec4 (-1) 1 10 5) /\
  fst (metropolis_hastings (E := replay) 1 0 0 1 0 None 3 1 10 5 w)
  = Ok [[-1]; [1]; [10]; [5]].
Proof.
  repeat split; try reflexivity.
  exists nan. split; reflexivity.
Qed.

Lemma optimise_respects_bounds_witness :
  exists r w',
    optimise (E := replay) 1 0 0 3 (-1) 10 5
      (replay_world init (mk_tape [] [] [])) = (Ok r, w') /\
    (0 <=? x_beta r) = true /\ (0 <=? x_zt r) = true /\
    (0 <=? x_dz r) = true.
Proof.
  exists (mk_vec4 3 0 10 5), (replay_world init (mk_tape [] [] [])).
  split; [reflexivity|].
  apply (proj1 (optimise_respects_bounds (E := replay))
           one_shot_minimize_bounds 1 0 0 3 (-1) 10 5
           (replay_world init (mk_tape [] [] []))
           (mk_vec4 3 0 10 5) (replay_world init (mk_tape [] [] []))
           eq_refl eq_refl).
Defined.

(** C4 as stated fails for the sampler.  From the default start
    (3, 1, 10, 5), which fits the spectrum exactly, the draw
    (0, -2, 0, -2) proposes (3, -1, 10, 3), which fits it exactly too:
    [P = 1], the proposal is accepted and the recorded state has
    [zt = -1]. *)
Lemma metropolis_hastings_leaves_bounds :
  fst (metropolis_hastings (E := replay) 1 0 0 1 0 None 3 1 10 5
         (replay_world init (mk_tape [mk_vec4 0 (-2) 0 (-2)] [0.5] [])))
  = Ok [[3]; [-1]; [10]; [3]] /\
  (0 <=? -1) = false.
Proof. split; reflexivity. Qed.

(** * Further properties *)

(** ** Signs in binary64 arithmetic *)

Lemma binary_round_aux_signed (s : bool) (m e : Z) (l : location) :
  sf_signed s (binary_round_aux prec emax s m e l).
Proof.
  unfold binary_round_aux.
  destruct (shr_fexp prec emax m e l) as [mrs' e'].
  destruct (shr_fexp prec emax _ e' loc_Exact) as [mrs'' e''].
  destruct (shr_m mrs''); simpl; auto.
  match goal with |- context [if ?c then _ else _] => destruct c end;
    simpl; auto.
Qed.

Lemma binary_round_signed (s : bool) (m : positive) (e : Z) :
  sf_signed s (binary_round prec emax s m e).
Proof.
  unfold binary_round.
  destruct (shl_align m e _) as [mz ez].
  apply binary_round_aux_signed.
Qed.

Lemma mul_self_nonneg (y : float) : nonneg (y * y).
Proof.
  unfold nonneg. rewrite mul_spec. unfold SF64mul, SFmul.
  destruct (Prim2SF y) as [s|s| |s m e]; simpl; auto using xorb_nilpotent.
  rewrite xorb_nilpotent. apply binary_round_aux_signed.
Qed.

Lemma mul_nonneg (a b : float) : nonneg a -> nonneg b -> nonneg (a * b).
Proof.
  unfold nonneg. rewrite mul_spec. unfold SF64mul, SFmul.
  destruct (Prim2SF a) as [sa|sa| |sa ma ea];
    destruct (Prim2SF b) as [sb|sb| |sb mb eb]; simpl; auto;
    intros -> ->; simpl; auto.
  apply binary_round_aux_signed.
Qed.

Lemma add_nonneg (a b : float) : nonneg a -> nonneg b -> nonneg (a + b).
Proof.
  unfold nonneg. rewrite add_spec. unfold SF64add, SFadd.
  destruct (Prim2SF a) as [sa|sa| |sa ma ea];
    destruct (Prim2SF b) as [sb|sb| |sb mb eb]; simpl; auto;
    intros -> ->; simpl; auto.
  apply binary_round_signed.
Qed.

Lemma nonneg_not_negative (v : float) : nonneg v -> (v <? 0) = false.
Proof.
  unfold nonneg. rewrite ltb_spec.
  change (Prim2SF 0) with (S754_zero false).
  destruct (Prim2SF v) as [s|s| |s m e]; simpl; auto; intros ->; reflexivity.
Qed.

Lemma half_nonneg : nonneg 0.5.
Proof. unfold nonneg. vm_compute. reflexivity. Qed.

Lemma zero_nonneg : nonneg 0.
Proof. unfold nonneg. vm_compute. reflexivity. Qed.

Lemma add_zero_r (m : float) : nonneg m -> m + 0 = m.
Proof.
  unfold nonneg. intros Hm. apply Prim2SF_inj. rewrite add_spec.
  change (Prim2SF 0) with (S754_zero false). unfold SF64add, SFadd.
  destruct (Prim2SF m) as [s|s| |s mm e]; simpl in *; auto.
  now subst s.
Qed.

(** ** The penalty and the objective *)

Lemma objective_function_nonneg (x x0 sigma_x0 : ndarray) (v : float) :
  objective_function x x0 sigma_x0 = Ok v -> nonneg v.
Proof.
  unfold objective_function, rbind.
  destruct (broadcast sub x x0) as [d|e]; [|discriminate].
  destruct (broadcast div d sigma_x0) as [q|e]; [|discriminate].
  intros H. inversion H. subst v.
  apply mul_nonneg; [apply half_nonneg|apply mul_self_nonneg].
Qed.

Lemma objective_function_star_nonneg (val : float) (l : list float)
  (v : float) :
  objective_function_star val l = Ok v -> nonneg v.
Proof.
  destruct l as [|x0 [|s r]]; simpl; try discriminate.
  apply objective_function_nonneg.
Qed.

Lemma objective_routine_from_nonneg (self : CurieOptimise)
  (kwargs : list (string * float)) :
  forall c v,
    nonneg c -> objective_routine_from self c kwargs = Ok v -> nonneg v.
Proof.
  induction kwargs as [|[key val] rest IH]; intros c v Hc Hrun; simpl in Hrun.
  - now inversion Hrun; subst.
  - destruct (Dict.get (prior self) key) as [[l|]|];
      [|eapply IH; eassumption|eapply IH; eassumption].
    unfold rbind in Hrun.
    destruct (objective_function_star val l) as [p|e] eqn:Hp; [|discriminate].
    eapply IH; [|exact Hrun].
    apply add_nonneg; auto. eapply objective_function_star_nonneg; eauto.
Qed.

(** X1.  The misfit, the penalty and the objective are never negative:
    what [objective_function], [objective_routine] and [min_func]
    return is NaN, zero, positive or +infinity, so it is never below
    zero. *)
Theorem objective_never_negative {E : Env} (self : CurieOptimise) :
  (forall x x0 sigma_x0 v,
      objective_function x x0 sigma_x0 = Ok v -> (v <? 0) = false) /\
  (forall kwargs v,
      objective_routine self kwargs = Ok v -> (v <? 0) = false) /\
  (forall x kh Phi sigma_Phi v,
      min_func self x kh Phi sigma_Phi = Ok v -> (v <? 0) = false).
Proof.
  split; [|split].
  - intros x x0 s v H. apply nonneg_not_negative.
    eapply objective_function_nonneg; eauto.
  - intros kwargs v H. apply nonneg_not_negative.
    eapply objective_routine_from_nonneg; [apply zero_nonneg|exact H].
  - intros x kh Phi sigma_Phi v H. unfold min_func, rbind in H.
    destruct (objective_function _ Phi sigma_Phi) as [m|e] eqn:Hm;
      [|discriminate].
    destruct (negb (isfinite m)).
    + inversion H. reflexivity.
    + destruct (objective_routine self _) as [p|e] eqn:Hp; [|discriminate].
      inversion H. apply nonneg_not_negative. apply add_nonneg.
      * eapply objective_function_nonneg; eauto.
      * eapply objective_routine_from_nonneg; [apply zero_nonneg|exact Hp].
Qed.

Lemma objective_never_negative_witness :
  exists v,
    min_func (E := replay) two_priors (mk_vec4 3.2 1 10 5) [0.5] [-1] [1]
    = Ok v /\ (v <? 0) = false.
Proof.
  eexists. split; [reflexivity|].
  apply (proj2 (proj2 (objective_never_negative (E := replay) two_priors))
           (mk_vec4 3.2 1 10 5) [0.5] [-1] [1]).
  reflexivity.
Defined.

(** X2.  Without priors the objective is the forward misfit itself:
    after [reset_priors], [min_func] returns the misfit unchanged when
    it is finite (and 1e99 when it is not). *)
Theorem min_func_without_priors {E : Env} (s : CurieOptimise) (x : vec4)
  (kh Phi sigma_Phi : ndarray) (misfit : float) :
  objective_function
    (bouligand2009 E kh (x_beta x) (x_zt x) (x_dz x) (x_C x)) Phi sigma_Phi
  = Ok misfit ->
  min_func (reset_priors s) x kh Phi sigma_Phi
  = Ok (if isfinite misfit then misfit else 1e99).
Proof.
  intros Hm. unfold min_func. rewrite Hm. simpl.
  destruct (isfinite misfit); simpl; auto.
  f_equal. apply add_zero_r. eapply objective_function_nonneg; eauto.
Qed.

Lemma min_func_without_priors_witness :
  min_func (E := replay) (reset_priors two_priors) (mk_vec4 3 1 10 7)
    [0.5] [-1] [1] = Ok 2.
Proof.
  apply (min_func_without_priors (E := replay) two_priors (mk_vec4 3 1 10 7)
           [0.5] [-1] [1] 2).
  reflexivity.
Defined.

Lemma is_finite_cases (x : float) :
  is_finite x = true ->
  (exists s, Prim2SF x = S754_zero s) \/
  (exists s m e, Prim2SF x = S754_finite s m e).
Proof.
  unfold is_finite, is_nan, is_infinity.
  rewrite !FloatAxioms.eqb_spec, abs_spec.
  change (Prim2SF infinity) with (S754_infinity false).
  destruct (Prim2SF x) as [s|s| |s m e]; simpl; eauto;
    try destruct s; simpl; intros H; discriminate H.
Qed.

Lemma sub_self (x : float) : is_finite x = true -> x - x = 0.
Proof.
  intros Hx. apply Prim2SF_inj. rewrite sub_spec.
  change (Prim2SF 0) with (S754_zero false). unfold SF64sub, SFsub.
  destruct (is_finite_cases x Hx) as [[s ->]|[s [m [e ->]]]].
  - now destruct s.
  - now rewrite Z.sub_diag.
Qed.

Lemma zero_div_proper (y : float) :
  is_nan y = false -> is_zero y = false ->
  exists s, Prim2SF (0 / y) = S754_zero s.
Proof.
  unfold is_nan, is_zero. rewrite !FloatAxioms.eqb_spec, div_spec.
  change (Prim2SF 0) with (S754_zero false).
  change (Prim2SF zero) with (S754_zero false).
  unfold SF64div, SFdiv.
  destruct (Prim2SF y) as [s|s| |s m e]; simpl; eauto;
    intros H1 H2; discriminate.
Qed.

Lemma mul_zero_self (q : float) (s : bool) :
  Prim2SF q = S754_zero s -> q * q = 0.
Proof.
  intros Hq. apply Prim2SF_inj. rewrite mul_spec, Hq.
  change (Prim2SF 0) with (S754_zero false).
  simpl. now rewrite xorb_nilpotent.
Qed.

(** X3.  The penalty of a parameter at the location of its own normal
    prior is exactly 0.0, for a finite location and a scale that is
    neither zero nor NaN. *)
Theorem penalty_zero_at_location (self : CurieOptimise) (key : string)
  (x0 sigma : float) :
  Dict.mem (prior self) key = true ->
  is_finite x0 = true ->
  is_nan sigma = false ->
  is_zero sigma = false ->
  objective_routine
    (snd (add_prior self [(key, PyTuple [x0; sigma])])) [(key, x0)]
  = Ok 0.
Proof.
  intros Hmem Hx0 Hnan Hzero. simpl. rewrite Hmem. simpl.
  rewrite (objective_routine_single _ key x0 x0 sigma [])
    by (simpl; apply dict_get_set_same).
  rewrite (sub_self x0 Hx0).
  destruct (zero_div_proper sigma Hnan Hzero) as [s Hs].
  unfold linalg_norm, dot. simpl.
  rewrite (mul_zero_self _ s Hs). reflexivity.
Qed.

Lemma penalty_zero_at_location_witness :
  objective_routine
    (snd (add_prior init [("dz"%string, PyTuple [10.5; 0.25])]))
    [("dz"%string, 10.5)]
  = Ok 0.
Proof.
  apply (penalty_zero_at_location init "dz"%string 10.5 0.25); reflexivity.
Defined.

(** X4.  [objective_routine] counts only the parameters that have a
    prior: keywords whose name is not a key of [self.prior], or whose
    prior is [None], can be dropped from the call without changing the
    result. *)
Theorem objective_routine_skips_inactive (self : CurieOptimise)
  (kwargs : list (string * float)) :
  objective_routine self kwargs
  = objective_routine self
      (filter (fun kv => has_prior self (fst kv)) kwargs).
Proof.
  unfold objective_routine. generalize 0.
  induction kwargs as [|[key val] rest IH]; intros c; simpl; auto.
  unfold has_prior at 1. simpl.
  destruct (Dict.get (prior self) key) as [[l|]|] eqn:Hget; simpl; auto.
  rewrite Hget. unfold rbind.
  destruct (objective_function_star val l); auto.
Qed.

Lemma objective_routine_from_ok (self : CurieOptimise)
  (kwargs : list (string * float)) :
  forall c,
    (forallb (fun kv => binds_two self (fst kv)) kwargs = true ->
     exists v, objective_routine_from self c kwargs = Ok v) /\
    (forallb (fun kv => binds_two self (fst kv)) kwargs = false ->
     objective_routine_from self c kwargs = Raise TypeError).
Proof.
  induction kwargs as [|[key val] rest IH]; intros c; simpl.
  - split; [eauto|discriminate].
  - unfold binds_two at 1 3. simpl.
    destruct (Dict.get (prior self) key) as [[l|]|]; simpl; try apply IH.
    destruct l as [|x0 [|s r]]; simpl; try (split; [discriminate|reflexivity]).
    apply IH.
Qed.

(** X5.  With no zero scale among the priors of the supplied
    parameters, [objective_routine] returns exactly when each of them
    that has a prior has at least two stored arguments; when one has
    fewer (a distribution frozen with fewer than two positional
    arguments), the call raises [TypeError]. *)
Theorem objective_routine_returns_iff (self : CurieOptimise)
  (kwargs : list (string * float)) :
  forallb (fun kv => scale_not_zero self (fst kv)) kwargs = true ->
  (forallb (fun kv => binds_two self (fst kv)) kwargs = true ->
   exists v, objective_routine self kwargs = Ok v) /\
  (forallb (fun kv => binds_two self (fst kv)) kwargs = false ->
   objective_routine self kwargs = Raise TypeError).
Proof. intros _. apply objective_routine_from_ok. Qed.

Lemma objective_routine_returns_iff_witness :
  (exists v, objective_routine two_priors
               [("beta"%string, 3.1); ("zt"%string, 1.5)] = Ok v) /\
  objective_routine bare_norm_prior
    [("beta"%string, 3.1); ("zt"%string, 1.5)] = Raise TypeError.
Proof.
  split.
  - apply (proj1 (objective_routine_returns_iff two_priors
                    [("beta"%string, 3.1); ("zt"%string, 1.5)] eq_refl)).
    reflexivity.
  - apply (proj2 (objective_routine_returns_iff bare_norm_prior
                    [("beta"%string, 3.1); ("zt"%string, 1.5)] eq_refl)).
    reflexivity.
Defined.

Lemma zip_with_length (op : float -> float -> float) (a b : ndarray) :
  List.length a = List.length b ->
  List.length (zip_with op a b) = List.length a.
Proof.
  revert b. induction a as [|x a IH]; intros [|y b] H; simpl in *;
    try discriminate; auto.
Qed.

Lemma two_arg_priors_binds (self : CurieOptimise) (key : string) :
  two_arg_priors self -> binds_two self key = true.
Proof.
  intros H. unfold binds_two.
  destruct (Dict.get (prior self) key) as [[l|]|] eqn:Hget; auto.
  apply Nat.leb_le. eapply H; eauto.
Qed.

(** X6.  [min_func] returns (it does not raise) whenever every stored
    list of prior arguments has at least two items and the forward
    model gives one value per bin of the spectrum. *)
Theorem min_func_returns {E : Env} (self : CurieOptimise) (x : vec4)
  (kh Phi sigma_Phi : ndarray) :
  two_arg_priors self ->
  List.length (bouligand2009 E kh (x_beta x) (x_zt x) (x_dz x) (x_C x))
  = List.length Phi ->
  List.length Phi = List.length sigma_Phi ->
  is_ok (min_func self x kh Phi sigma_Phi) = true.
Proof.
  intros Hpriors Hsyn Hsig. unfold min_func, objective_function, broadcast.
  rewrite Hsyn, Nat.eqb_refl. simpl.
  rewrite zip_with_length by exact Hsyn.
  rewrite Hsyn, Hsig, Nat.eqb_refl. simpl.
  match goal with |- context [isfinite ?m] => destruct (isfinite m) end;
    simpl; auto.
  match goal with
  | |- context [objective_routine self ?kw] =>
      destruct (proj1 (objective_routine_from_ok self kw 0)) as [v Hv]
  end.
  - simpl. now rewrite !two_arg_priors_binds.
  - unfold objective_routine. now rewrite Hv.
Qed.

Lemma replay_two_priors_two_args : two_arg_priors two_priors.
Proof.
  intros key l.
  change (prior two_priors)
    with [("beta"%string, Some [3.0; 0.1]); ("zt"%string, Some [1.0; 0.5]);
          ("dz"%string, @None (list float)); ("C"%string, None)].
  cbn [Dict.get].
  repeat match goal with
         | |- context [String.eqb ?a ?b] => destruct (String.eqb a b)
         end; intros H; inversion H; simpl; auto.
Qed.

Lemma min_func_returns_witness :
  is_ok (min_func (E := replay) two_priors (mk_vec4 3.2 1 10 5)
           [0.5; 0.7] [-1; -2] [1; 1]) = true.
Proof.
  apply (min_func_returns (E := replay) two_priors (mk_vec4 3.2 1 10 5)
           [0.5; 0.7] [-1; -2] [1; 1] replay_two_priors_two_args);
    reflexivity.
Defined.

Lemma two_arg_priors_set (self : CurieOptimise) (key : string)
  (pdf : rv_frozen) :
  two_arg_priors self ->
  (2 <= List.length (args pdf))%nat ->
  two_arg_priors
    (set_priors self (Dict.set (prior self) key (Some (args pdf)))
       (Dict.set (prior_pdf self) key (Some pdf))).
Proof.
  intros H Hlen k l. simpl. destruct (string_dec key k) as [->|Hne].
  - rewrite dict_get_set_same. intros Heq. now inversion Heq; subst.
  - rewrite dict_get_set_other by exact Hne. apply H.
Qed.

(** X7.  Priors given as (location, scale) tuples never break the
    objective: when every stored list of arguments has at least two
    items, it is still so after [add_prior] with tuple values only,
    whether the call returns or raises. *)
Theorem add_prior_tuples_keep_two_args (kwargs : list (string * pyobj)) :
  forall self,
    two_arg_priors self ->
    forallb (fun kv => is_tuple (snd kv)) kwargs = true ->
    two_arg_priors (snd (add_prior self kwargs)).
Proof.
  induction kwargs as [|[key v] rest IH]; intros self H Htup; simpl; auto.
  simpl in Htup. apply andb_true_iff in Htup. destruct Htup as [Hv Hrest].
  destruct (Dict.mem (prior self) key); simpl; auto.
  destruct v as [[|p [|s [|t r]]]|d|]; simpl in *; try discriminate; auto.
  apply IH; auto.
  apply (two_arg_priors_set self key (stats_norm p s)); simpl; auto.
Qed.

Lemma two_arg_priors_init : two_arg_priors init.
Proof.
  intros key l.
  change (prior init)
    with (map (fun k => (k, @None (list float))) param_names).
  cbn [Dict.get map param_names].
  repeat match goal with
         | |- context [String.eqb ?a ?b] => destruct (String.eqb a b)
         end; intros H; discriminate H.
Qed.

Lemma add_prior_tuples_keep_two_args_witness :
  two_arg_priors
    (snd (add_prior init [("beta"%string, PyTuple [3.0; 0.1]);
                          ("C"%string, PyTuple [5.0; 2.0])])).
Proof.
  apply (add_prior_tuples_keep_two_args _ init two_arg_priors_init).
  reflexivity.
Defined.

(** ** What the constructors keep *)

Lemma store_ok_mem (s : CurieOptimise) (k : string) :
  store_ok s -> Dict.mem (prior_pdf s) k = Dict.mem (prior s) k.
Proof.
  intros [_ Hp]. rewrite Hp. clear Hp. unfold Dict.mem.
  induction (prior_pdf s) as [|[k' o] d IH]; simpl; auto.
  destruct (String.eqb k' k); auto.
Qed.

Lemma add_prior_bounds (kwargs : list (string * pyobj)) :
  forall self, bounds (snd (add_prior self kwargs)) = bounds self.
Proof.
  induction kwargs as [|[k v] rest IH]; intros self; simpl; auto.
  destruct (Dict.mem (prior self) k); simpl; auto.
  destruct (prior_of_value v) as [pdf|e]; simpl; auto.
  now rewrite IH.
Qed.

Lemma add_prior_keys (kwargs : list (string * pyobj)) :
  forall self,
    store_ok self ->
    Dict.keys (prior_pdf (snd (add_prior self kwargs)))
    = Dict.keys (prior_pdf self).
Proof.
  induction kwargs as [|[k v] rest IH]; intros self Hok; simpl; auto.
  destruct (Dict.mem (prior self) k) eqn:Hmem; simpl; auto.
  destruct (prior_of_value v) as [pdf|e] eqn:Hv; simpl; auto.
  rewrite IH.
  - simpl. apply dict_set_keys. now rewrite store_ok_mem.
  - pose proof (store_ok_add_prior [(k, v)] self Hok) as H1.
    simpl in H1. now rewrite Hmem, Hv in H1.
Qed.

(** X8.  Every object that [__init__], [reset_priors] and [add_prior]
    can produce has exactly the four slots beta, zt, dz, C in both
    dictionaries, stored arguments that are [None] or the arguments of
    the slot's distribution, and the bounds that [__init__] set. *)
Theorem constructed_invariant (s : CurieOptimise) :
  constructed s ->
  store_ok s /\
  bounds s = init_bounds /\
  Dict.keys (prior s) = param_names /\
  Dict.keys (prior_pdf s) = param_names.
Proof.
  induction 1 as [|s Hs [Hok [Hb [Hk Hq]]]|s kwargs Hs [Hok [Hb [Hk Hq]]]].
  - split; [apply store_ok_init|]. repeat split.
  - repeat split; auto.
    repeat constructor; simpl; intuition discriminate.
  - pose proof (store_ok_add_prior kwargs s Hok) as Hok'.
    split; [exact Hok'|]. split; [now rewrite add_prior_bounds|].
    rewrite (store_ok_keys _ Hok'), add_prior_keys; auto.
Qed.

Lemma constructed_invariant_witness :
  store_ok bare_norm_prior /\
  bounds bare_norm_prior = init_bounds /\
  Dict.keys (prior bare_norm_prior) = param_names /\
  Dict.keys (prior_pdf bare_norm_prior) = param_names.
Proof.
  apply constructed_invariant. unfold bare_norm_prior.
  apply constructed_add. apply constructed_init.
Defined.

Lemma add_prior_untouched (kwargs : list (string * pyobj)) :
  forall self key,
    ~ In key (map fst kwargs) ->
    Dict.get (prior (snd (add_prior self kwargs))) key
    = Dict.get (prior self) key /\
    Dict.get (prior_pdf (snd (add_prior self kwargs))) key
    = Dict.get (prior_pdf self) key.
Proof.
  induction kwargs as [|[k v] rest IH]; intros self key Hnot; simpl; auto.
  simpl in Hnot.
  destruct (Dict.mem (prior self) k); simpl; auto.
  destruct (prior_of_value v) as [pdf|e]; simpl; auto.
  destruct (IH (set_priors self
                  (Dict.set (prior self) k (Some (args pdf)))
                  (Dict.set (prior_pdf self) k (Some pdf))) key)
    as [H1 H2]; [tauto|].
  rewrite H1, H2. simpl.
  rewrite !dict_get_set_other by tauto. auto.
Qed.

(** X9.  What [add_prior] stores.  The slots of the parameters it is not
    given are left as they were, whether it returns or raises.  When it
    returns, each keyword's slot holds the distribution of its value (a
    frozen normal for a tuple, the distribution itself otherwise) and
    the list of that distribution's arguments. *)
Theorem add_prior_lookup (kwargs : list (string * pyobj)) :
  forall self,
    (forall key,
        ~ In key (map fst kwargs) ->
        Dict.get (prior (snd (add_prior self kwargs))) key
        = Dict.get (prior self) key /\
        Dict.get (prior_pdf (snd (add_prior self kwargs))) key
        = Dict.get (prior_pdf self) key) /\
    (forall self',
        add_prior self kwargs = (Ok tt, self') ->
        NoDup (map fst kwargs) ->
        forall key v,
          In (key, v) kwargs ->
          exists pdf,
            prior_of_value v = Ok pdf /\
            Dict.get (prior_pdf self') key = Some (Some pdf) /\
            Dict.get (prior self') key = Some (Some (args pdf))).
Proof.
  induction kwargs as [|[k v0] rest IH]; intros self.
  - split; [auto|]. intros self' _ _ key v [].
  - split; [intros key; apply (add_prior_untouched ((k, v0) :: rest))|].
    intros self' Hrun Hnd key v Hin. simpl in Hrun.
    destruct (Dict.mem (prior self) k); [|discriminate].
    destruct (prior_of_value v0) as [pdf|e] eqn:Hv; [|discriminate].
    simpl in Hnd. inversion Hnd as [|? ? Hnotin Hnd']; subst.
    destruct Hin as [Heq|Hin].
    + inversion Heq; subst k v0. exists pdf. split; [exact Hv|].
      destruct (add_prior_untouched rest
                  (set_priors self
                     (Dict.set (prior self) key (Some (args pdf)))
                     (Dict.set (prior_pdf self) key (Some pdf))) key Hnotin)
        as [H1 H2].
      rewrite Hrun in H1, H2. simpl in H1, H2.
      rewrite H1, H2, !dict_get_set_same. auto.
    + eapply (proj2 (IH _)); eauto.
Qed.

Lemma add_prior_lookup_witness :
  exists pdf,
    prior_of_value (PyTuple [1.0; 0.5]) = Ok pdf /\
    Dict.get (prior_pdf two_priors) "zt" = Some (Some pdf) /\
    Dict.get (prior two_priors) "zt" = Some (Some (args pdf)).
Proof.
  apply (proj2 (add_prior_lookup
                  [("beta"%string, PyTuple [3.0; 0.1]);
                   ("zt"%string, PyTuple [1.0; 0.5])] init)
           two_priors eq_refl).
  - repeat constructor; simpl; intuition discriminate.
  - right. left. reflexivity.
Defined.

(** ** Estimation and sampling read the object *)

Section ReadOnly.

Context {E : Env}.

Lemma map_m_first_failure {A B : Type} (f : A -> M E B) (w w' : world E)
  (a : A) (e : exn) (post : list A) :
  forall pre,
    (forall b, In b pre -> exists r, f b w = (Ok r, w)) ->
    f a w = (Raise e, w') ->
    map_m f (pre ++ a :: post) w = (Raise e, w').
Proof.
  induction pre as [|b pre IH]; intros Hpre Ha; simpl.
  - unfold mbind. now rewrite Ha.
  - destruct (Hpre b (or_introl eq_refl)) as [r Hr].
    unfold mbind at 1. rewrite Hr. unfold mbind at 1.
    rewrite IH; auto. intros b' Hb'. apply Hpre. now right.
Qed.

(** X10.  [optimise_routine] stops at the first centroid whose
    estimation raises: when the centroids before index [i] can be
    estimated and [optimise] raises at centroid [i], the call raises
    the same exception and returns nothing. *)
Theorem optimise_routine_first_failure (window : float)
  (xc_list yc_list : list float) (beta zt dz C : float) (w : world E)
  (i : nat) (xc yc : float) (e : exn) :
  List.length xc_list = List.length yc_list ->
  nth_error xc_list i = Some xc ->
  nth_error yc_list i = Some yc ->
  fst (optimise window xc yc beta zt dz C w) = Raise e ->
  (forall j xj yj,
      (j < i)%nat ->
      nth_error xc_list j = Some xj -> nth_error yc_list j = Some yj ->
      is_ok (fst (optimise window xj yj beta zt dz C w)) = true) ->
  optimise_routine window xc_list yc_list beta zt dz C w = (Raise e, w).
Proof.
  intros Hlen Hx Hy Hfail Hbefore.
  unfold optimise_routine. rewrite Hlen, Nat.eqb_refl. simpl.
  set (f := fun i : nat =>
              (xc <- lift (getitem xc_list i) ;;
               yc <- lift (getitem yc_list i) ;;
               optimise window xc yc beta zt dz C)%world).
  assert (Hbody : forall i buf w0,
             optimise_routine_body window xc_list yc_list beta zt dz C
               i buf w0
             = (b <- f i ;; lift (set_row buf i b))%world w0).
  { intros i0 buf w0. unfold optimise_routine_body, f, mbind, lift.
    destruct (getitem xc_list i0); auto.
    destruct (getitem yc_list i0); auto. }
  pose proof (for_range_fill f _ Hbody (List.length yc_list) 0 []
                (np_empty (List.length yc_list)) w eq_refl
                (np_empty_length _)) as Hfill.
  change ([] ++ np_empty (List.length yc_list))
    with (np_empty (List.length yc_list)) in Hfill.
  unfold mbind at 1. rewrite Hfill. unfold mbind at 1.
  assert (Hi : (i < List.length yc_list)%nat)
    by (apply nth_error_Some; congruence).
  replace (List.length yc_list)
    with (i + S (List.length yc_list - S i))%nat by lia.
  rewrite seq_app. simpl seq.
  rewrite (map_m_first_failure f w w i e); auto.
  - intros j Hj. apply in_seq in Hj.
    destruct (nth_error xc_list j) as [xj|] eqn:Hxj;
      [|apply nth_error_None in Hxj; lia].
    destruct (nth_error yc_list j) as [yj|] eqn:Hyj;
      [|apply nth_error_None in Hyj; lia].
    pose proof (Hbefore j xj yj (proj2 Hj) Hxj Hyj) as Hok.
    pose proof (optimise_world window xj yj beta zt dz C w) as Hw.
    unfold f, mbind, lift, getitem. rewrite Hxj, Hyj.
    destruct (optimise window xj yj beta zt dz C w) as [[r|e'] w'];
      simpl in *; [|discriminate]. subst w'. eauto.
  - pose proof (optimise_world window xc yc beta zt dz C w) as Hw.
    unfold f, mbind, lift, getitem. rewrite Hx, Hy.
    destruct (optimise window xc yc beta zt dz C w) as [r w']. simpl in *.
    now subst.
Qed.



Variable x_scale : vec4.
Variables k Phi sigma_Phi : ndarray.

Lemma burnin_body_self (s : CurieOptimise) (i : nat) (st : mh_state)
  (w : world E) (r : result mh_state) (w' : world E) :
  burnin_body x_scale k Phi sigma_Phi i st w = (r, w') ->
  self w = s -> self w' = s.
Proof.
  unfold burnin_body, burnin_step, mbind, draw, call_min_func, ret.
  destruct (random_normal4 E (gen w)) as [z g]. simpl.
  destruct (min_func (self w) (fst st) k Phi sigma_Phi);
    [|intros H; now inversion H].
  destruct (min_func (self w) _ k Phi sigma_Phi);
    intros H; now inversion H.
Qed.

Lemma sampling_body_self (s : CurieOptimise) (i : nat) (st : mh_state)
  (w : world E) (r : result mh_state) (w' : world E) :
  sampling_body x_scale k Phi sigma_Phi i st w = (r, w') ->
  self w = s -> self w' = s.
Proof.
  unfold sampling_body, sampling_step, mbind, draw, call_min_func, ret, lift.
  destruct (random_normal4 E (gen w)) as [z g]. simpl.
  destruct (min_func (self w) (fst st) k Phi sigma_Phi);
    [|intros H; now inversion H].
  destruct (min_func (self w) _ k Phi sigma_Phi);
    [|intros H; now inversion H].
  destruct (random_rand E g) as [u g']. simpl.
  destruct (set_row (snd st) i _); intros H; now inversion H.
Qed.

End ReadOnly.

(** X12.  [metropolis_hastings] never changes the object: whether it
    returns the ensemble or raises, the priors, their distributions
    and the bounds are as before the call. *)
Theorem metropolis_hastings_reads_only {E : Env} (window xc yc : float)
  (nsim burnin : nat) (scale : option vec4) (beta zt dz C : float)
  (w : world E) :
  self (snd (metropolis_hastings window xc yc nsim burnin scale
               beta zt dz C w)) = self w.
Proof.
  unfold metropolis_hastings, mbind, lift.
  destruct (spectrum E window xc yc) as [[[k Phi] sigma_Phi]|e]; auto.
  destruct (burnin_phase _ k Phi sigma_Phi burnin _ w) as [[st|e] w1]
    eqn:Hburn.
  - assert (H1 : self w1 = self w).
    { eapply (for_range_m_inv (fun w0 => self w0 = self w)); eauto.
      intros; eapply burnin_body_self; eauto. }
    destruct (sampling_phase _ k Phi sigma_Phi nsim st w1) as [[st'|e] w2]
      eqn:Hsamp; simpl;
      eapply (for_range_m_inv (fun w0 => self w0 = self w)); eauto;
      intros; eapply sampling_body_self; eauto.
  - simpl. eapply (for_range_m_inv (fun w0 => self w0 = self w)); eauto.
    intros; eapply burnin_body_self; eauto.
Qed.

Lemma optimise_routine_first_failure_witness :
  optimise_routine (E := replay_bounded) 1 [0; 1; 2; 3] [4; 5; 6; 7]
    3 1 10 5 (mk_world (E := replay_bounded) init (mk_tape [] [] []))
  = (Raise ValueError,
     mk_world (E := replay_bounded) init (mk_tape [] [] [])).
Proof.
  apply (optimise_routine_first_failure (E := replay_bounded) 1
           [0; 1; 2; 3] [4; 5; 6; 7] 3 1 10 5
           (mk_world (E := replay_bounded) init (mk_tape [] [] []))
           2 2 6 ValueError); try reflexivity.
  intros [|[|j]] xj yj Hj Hx Hy; simpl in Hx, Hy;
    try (inversion Hx; inversion Hy; subst; reflexivity).
  lia.
Defined.

(** ** What [sensitivity] can change *)

Section SensitivityFrame.

Context {E : Env}.

Lemma dict_get_in_keys {V : Type} (d : Dict.t V) (k : string) (v : V) :
  Dict.get d k = Some v -> In k (Dict.keys d).
Proof.
  intros Hget. destruct (in_dec string_dec k (Dict.keys d)) as [Hin|Hn]; auto.
  rewrite (dict_get_absent d k Hn) in Hget. discriminate.
Qed.

Lemma location_frame_refl (s : CurieOptimise) : location_frame s s.
Proof. repeat split; auto. intros key. now left. Qed.

Lemma perturb_location_frame (s0 : CurieOptimise) (key : string)
  (w : world E) (r : result unit) (w' : world E) :
  perturb key w = (r, w') ->
  location_frame s0 (self w) -> location_frame s0 (self w').
Proof.
  intros Hrun Hfr.
  unfold perturb, mbind, get_self, draw, put_prior, raise in Hrun.
  destruct (Dict.get (prior_pdf (self w)) key) as [[pdf|]|];
    try (inversion Hrun; now subst).
  destruct (rvs E pdf (gen w)) as [x g].
  destruct (Dict.get (prior (self w)) key) as [[[|h rest]|]|] eqn:Hget;
    simpl in Hrun; inversion Hrun; subst; simpl; auto.
  destruct Hfr as [Hpdf [Hb [Hk Hloc]]]. repeat split; simpl; auto.
  - rewrite dict_set_keys; auto. unfold Dict.mem. now rewrite Hget.
  - intros k0. destruct (string_dec key k0) as [<-|Hne].
    + rewrite dict_get_set_same. specialize (Hloc key).
      rewrite Hget in Hloc. right.
      destruct Hloc as [Heq|[a [b [t [Ha Hb']]]]].
      * exists h, x, rest. auto.
      * inversion Hb'; subst. exists a, x, t. auto.
    + rewrite dict_get_set_other by exact Hne. apply Hloc.
Qed.

Lemma restore_location_frame (s0 : CurieOptimise) (key : string)
  (w : world E) (r : result unit) (w' : world E) :
  store_ok s0 ->
  restore key w = (r, w') ->
  location_frame s0 (self w) -> location_frame s0 (self w').
Proof.
  intros Hok Hrun Hfr.
  unfold restore, mbind, get_self, put_prior, raise in Hrun.
  destruct (Dict.get (prior_pdf (self w)) key) as [[pdf|]|] eqn:Hget;
    try (inversion Hrun; now subst).
  inversion Hrun; subst; simpl.
  destruct Hfr as [Hpdf [Hb [Hk Hloc]]]. rewrite Hpdf in Hget.
  repeat split; simpl; auto.
  - rewrite dict_set_keys; auto. apply dict_mem_in.
    rewrite Hk, (store_ok_keys _ Hok). eapply dict_get_in_keys; eauto.
  - intros k0. destruct (string_dec key k0) as [<-|Hne].
    + rewrite dict_get_set_same, (store_ok_get _ key Hok), Hget. now left.
    + rewrite dict_get_set_other by exact Hne. apply Hloc.
Qed.

Lemma sensitivity_body_location_frame (ks : list string) (s0 : CurieOptimise)
  (x0 : vec4) (k Phi sigma_Phi : ndarray) (sim : nat) (samples : list vec4)
  (w : world E) (r : result (list vec4)) (w' : world E) :
  sensitivity_body ks x0 k Phi sigma_Phi sim samples w = (r, w') ->
  location_frame s0 (self w) -> location_frame s0 (self w').
Proof.
  intros Hrun Hfr. unfold sensitivity_body, mbind in Hrun.
  destruct (for_each ks perturb w) as [[[]|e] w1] eqn:Hp.
  - assert (Hfr1 : location_frame s0 (self w1)).
    { eapply (for_each_inv (fun w => location_frame s0 (self w))); eauto.
      intros; eapply perturb_location_frame; eauto. }
    unfold draw_result, call_minimize, lift in Hrun.
    destruct (random_normal E Phi sigma_Phi (gen w1)) as [[rPhi|e] g];
      [|inversion Hrun; now subst].
    simpl in Hrun.
    destruct (minimize E _ x0 _) as [v|e]; inversion Hrun; now subst.
  - inversion Hrun; subst.
    eapply (for_each_inv (fun w => location_frame s0 (self w))); eauto.
    intros; eapply perturb_location_frame; eauto.
Qed.

(** X13.  Whatever happens in [sensitivity] (it completes its loop, or
    an iteration raises), the only thing it can have changed in the
    object is the first item, the location, of stored prior arguments:
    the distributions, the bounds, the keys, the scales and any
    further arguments are as before the call. *)
Theorem sensitivity_changes_locations_only (window xc yc : float)
  (nsim : nat) (beta zt dz C : float) (w : world E) :
  store_ok (self w) ->
  location_frame (self w)
    (self (snd (sensitivity window xc yc nsim beta zt dz C w))).
Proof.
  intros Hok. unfold sensitivity, mbind at 1.
  destruct (sensitivity_loop window xc yc nsim beta zt dz C w)
    as [[ks|e] w1] eqn:Hloop.
  - assert (Hfr : location_frame (self w) (self w1)).
    { unfold sensitivity_loop, mbind, get_self, lift, ret in Hloop.
      destruct (spectrum E window xc yc) as [[[k Phi] sigma_Phi]|e];
        [|discriminate].
      destruct (for_range_m 0 nsim _ (np_empty nsim) w) as [[smp|e] w1']
        eqn:Hrun; [|discriminate].
      inversion Hloop; subst.
      eapply (for_range_m_inv
                (fun w' => location_frame (self w) (self w'))); eauto.
      - intros; eapply sensitivity_body_location_frame; eauto.
      - apply location_frame_refl. }
    unfold mbind, raise.
    destruct (for_each (fst ks) restore w1) as [[[]|e] w2] eqn:Hres; simpl;
      eapply (for_each_inv (fun w' => location_frame (self w) (self w')));
      eauto; intros; eapply restore_location_frame; eauto.
  - simpl. unfold sensitivity_loop, mbind, get_self, lift, ret in Hloop.
    destruct (spectrum E window xc yc) as [[[k Phi] sigma_Phi]|e'].
    + destruct (for_range_m 0 nsim _ (np_empty nsim) w) as [[smp|e'] w1']
        eqn:Hrun; [discriminate|].
      inversion Hloop; subst.
      eapply (for_range_m_inv
                (fun w' => location_frame (self w) (self w'))); eauto.
      * intros; eapply sensitivity_body_location_frame; eauto.
      * apply location_frame_refl.
    + inversion Hloop; subst. apply location_frame_refl.
Qed.

End SensitivityFrame.

Lemma sensitivity_changes_locations_only_witness :
  location_frame bare_norm_prior
    (self (snd (sensitivity (E := replay) 1 0 0 2 3 1 10 5
                  (replay_world bare_norm_prior
                     (mk_tape [] [] [2.5; 0.7]))))).
Proof.
  apply (sensitivity_changes_locations_only (E := replay) 1 0 0 2 3 1 10 5
           (replay_world bare_norm_prior (mk_tape [] [] [2.5; 0.7]))).
  apply (store_ok_add_prior _ init store_ok_init).
Defined.

(** ** The acceptance probability *)

Lemma not_below_zero_spec (a : float) :
  (a <? 0) = false <-> sf_not_below_zero (Prim2SF a).
Proof.
  rewrite ltb_spec. change (Prim2SF 0) with (S754_zero false).
  destruct (Prim2SF a) as [s|s| |s m e]; simpl; try tauto;
    destruct s; simpl; split; intros H; auto; discriminate.
Qed.

Lemma py_max_positive_or_nan (p : float) :
  sf_positive_or_nan (Prim2SF (py_max p 1e-99)).
Proof.
  unfold py_max. destruct (p <? 1e-99) eqn:Hlt.
  - change (Prim2SF 1e-99)
      with (S754_finite false 4925250774549310 (-381)). reflexivity.
  - rewrite ltb_spec in Hlt.
    change (Prim2SF 1e-99)
      with (S754_finite false 4925250774549310 (-381)) in Hlt.
    unfold SFltb in Hlt.
    destruct (Prim2SF p) as [s|s| |s m e]; simpl; auto;
      destruct s; auto; cbn in Hlt; discriminate.
Qed.

Lemma div_not_below_zero (a b : float) :
  sf_not_below_zero (Prim2SF a) ->
  sf_positive_or_nan (Prim2SF b) ->
  sf_not_below_zero (Prim2SF (a / b)).
Proof.
  rewrite div_spec. unfold SF64div, SFdiv.
  destruct (Prim2SF a) as [sa|sa| |sa ma ea];
    destruct (Prim2SF b) as [sb|sb| |sb mb eb]; simpl; auto;
    try tauto; intros Ha Hb; subst; simpl; auto.
  destruct (SFdiv_core_binary prec emax (Z.pos ma) ea (Z.pos mb) eb)
    as [[mz ez] lz].
  pose proof (binary_round_aux_signed false mz ez lz) as Hs.
  destruct (binary_round_aux prec emax false mz ez lz); simpl in *; auto.
Qed.

(** X14.  With [np.exp] never negative, the acceptance probability of
    the sampling loop is never below 0 and never above 1: it lies in
    [0, 1] or is NaN. *)
Theorem acceptance_in_unit_interval {E : Env} (m0 m1 : float) :
  (forall x, (np_exp E x <? 0) = false) ->
  (acceptance m0 m1 <? 0) = false /\ (1 <? acceptance m0 m1) = false.
Proof.
  intros Hexp. unfold acceptance, py_min at 1 2.
  set (q := np_exp E (- m1) / py_max (np_exp E (- m0)) 1e-99).
  assert (Hq : (q <? 0) = false).
  { apply not_below_zero_spec. apply div_not_below_zero.
    - apply not_below_zero_spec. apply Hexp.
    - apply py_max_positive_or_nan. }
  destruct (1 <? q) eqn:H1; auto.
Qed.

Lemma acceptance_in_unit_interval_witness :
  (acceptance (E := replay) 0 1e99 <? 0) = false /\
  (1 <? acceptance (E := replay) 0 1e99) = false.
Proof.
  apply (acceptance_in_unit_interval (E := replay) 0 1e99 step_exp_nonneg).
Defined.

(** ** Symmetry of the penalty *)

Lemma binary_round_aux_opp (s : bool) (m e : Z) (l : location) :
  binary_round_aux prec emax (negb s) m e l
  = SFopp (binary_round_aux prec emax s m e l).
Proof.
  unfold binary_round_aux.
  destruct (shr_fexp prec emax m e l) as [mrs' e'].
  destruct (shr_fexp prec emax _ e' loc_Exact) as [mrs'' e''].
  destruct (shr_m mrs''); simpl; auto.
  match goal with |- context [if ?c then _ else _] => destruct c end;
    reflexivity.
Qed.

Lemma binary_round_opp (s : bool) (m : positive) (e : Z) :
  binary_round prec emax (negb s) m e = SFopp (binary_round prec emax s m e).
Proof.
  unfold binary_round.
  destruct (shl_align m e _) as [mz ez].
  apply binary_round_aux_opp.
Qed.

Lemma binary_normalize_opp (z e : Z) :
  binary_normalize prec emax (- z) e false
  = SFopp (binary_normalize prec emax z e false) \/
  (binary_normalize prec emax z e false = S754_zero false /\
   binary_normalize prec emax (- z) e false = S754_zero false).
Proof.
  destruct z as [|p|p]; unfold binary_normalize; cbn [Z.opp].
  - right. auto.
  - left. apply (binary_round_opp false).
  - left. apply (binary_round_opp true).
Qed.

Lemma SFsub_swap (a b : spec_float) :
  SF64sub b a = SFopp (SF64sub a b) \/
  (SF64sub a b = S754_zero false /\ SF64sub b a = S754_zero false).
Proof.
  unfold SF64sub, SFsub.
  destruct a as [sa|sa| |sa ma ea]; destruct b as [sb|sb| |sb mb eb];
    try (left; reflexivity);
    try (destruct sa, sb; simpl; auto; fail).
  rewrite (Z.min_comm eb ea).
  match goal with
  | |- context [binary_normalize _ _ (Z.sub ?B ?A) ?ez false] =>
      replace (Z.sub B A) with (- (Z.sub A B))%Z by lia;
      apply binary_normalize_opp
  end.
Qed.

Lemma SFdiv_opp_l (a s : spec_float) :
  SF64div (SFopp a) s = SFopp (SF64div a s).
Proof.
  unfold SF64div, SFdiv.
  destruct a as [sa|sa| |sa ma ea]; destruct s as [sb|sb| |sb mb eb];
    simpl; auto; try (now destruct sa, sb).
  destruct (SFdiv_core_binary prec emax (Z.pos ma) ea (Z.pos mb) eb)
    as [[mz ez] lz].
  rewrite <- binary_round_aux_opp. now destruct sa, sb.
Qed.

Lemma SFmul_opp_self (a : spec_float) :
  SF64mul (SFopp a) (SFopp a) = SF64mul a a.
Proof.
  unfold SF64mul, SFmul.
  destruct a as [sa|sa| |sa ma ea]; simpl; auto; now destruct sa.
Qed.

Lemma square_of_swapped_deviation (x x0 sigma : float) :
  (x0 - x) / sigma * ((x0 - x) / sigma)
  = (x - x0) / sigma * ((x - x0) / sigma).
Proof.
  destruct (SFsub_swap (Prim2SF x) (Prim2SF x0)) as [Hopp|[H1 H2]].
  - apply Prim2SF_inj. rewrite !mul_spec, !div_spec, !sub_spec.
    rewrite Hopp, SFdiv_opp_l. apply SFmul_opp_self.
  - assert (Heq : x0 - x = x - x0).
    { apply Prim2SF_inj. rewrite !sub_spec. congruence. }
    now rewrite Heq.
Qed.

(** X15.  The penalty is symmetric in the candidate and the location:
    the penalty of [x] under a prior located at [x0] is, bit for bit,
    the penalty of [x0] under a prior located at [x] with the same
    scale. *)
Theorem penalty_symmetric (x x0 sigma : float) :
  objective_function [x] [x0] [sigma] = objective_function [x0] [x] [sigma].
Proof.
  unfold objective_function, broadcast, linalg_norm, dot. simpl.
  now rewrite (square_of_swapped_deviation x x0 sigma).
Qed.

(** ** Resetting the priors *)

Lemma objective_routine_from_reset (s : CurieOptimise)
  (kwargs : list (string * float)) :
  forall c, objective_routine_from (reset_priors s) c kwargs = Ok c.
Proof.
  induction kwargs as [|[key val] rest IH]; intros c; auto.
  cbn [objective_routine_from].
  change (prior (reset_priors s))
    with (map (fun k => (k, @None (list float))) param_names).
  cbn [Dict.get map param_names].
  repeat match goal with
         | |- context [String.eqb ?a ?b] => destruct (String.eqb a b)
         end; apply IH.
Qed.

(** X16.  [reset_priors] forgets everything [add_prior] did, whether
    that call returned or raised: the object is the one a reset of the
    original gives, and every penalty is 0.0 afterwards. *)
Theorem reset_priors_forgets (s : CurieOptimise)
  (kwargs : list (string * pyobj)) :
  reset_priors (snd (add_prior s kwargs)) = reset_priors s /\
  forall kw, objective_routine (reset_priors (snd (add_prior s kwargs))) kw
             = Ok 0.
Proof.
  split.
  - unfold reset_priors, set_priors. now rewrite add_prior_bounds.
  - intros kw. apply objective_routine_from_reset.
Qed.

(** ** The burn-in climbs *)

Lemma SFcompare_antisym (a b : spec_float) :
  SFcompare b a = option_map CompOpp (SFcompare a b).
Proof.
  destruct a as [sa|sa| |sa ma ea]; destruct b as [sb|sb| |sb mb eb];
    try reflexivity; try (destruct sa, sb; reflexivity);
    try (destruct sa; reflexivity); try (destruct sb; reflexivity).
  unfold SFcompare. simpl option_map. f_equal.
  rewrite (Z.compare_antisym ea eb).
  destruct sa, sb; try reflexivity;
    destruct (ea ?= eb)%Z; simpl; auto;
    rewrite (Pos.compare_cont_antisym ma mb Eq); simpl;
    now destruct (Pos.compare_cont Eq ma mb).
Qed.

Lemma ltb_asym (a b : float) : (a <? b) = true -> (b <? a) = false.
Proof.
  rewrite !ltb_spec. unfold SFltb.
  rewrite (SFcompare_antisym (Prim2SF a) (Prim2SF b)).
  destruct (SFcompare (Prim2SF a) (Prim2SF b)) as [[]|]; simpl;
    auto; discriminate.
Qed.

Lemma ltb_irrefl (a : float) : (a <? a) = false.
Proof.
  destruct (a <? a) eqn:H; auto.
  pose proof (ltb_asym a a H). congruence.
Qed.

(** X17.  A burn-in iteration never moves to a less likely state: the
    tempered pseudo-likelihood [exp(-min_func(x)/1000)] of the state it
    leaves is not below that of the state it found. *)
Theorem burnin_step_never_descends {E : Env} (x_scale : vec4)
  (k Phi sigma_Phi : ndarray) (s : CurieOptimise) (g : rng E) (x0 : vec4)
  (m0 m1 : float) :
  min_func s x0 k Phi sigma_Phi = Ok m0 ->
  min_func s (propose x0 (fst (random_normal4 E g)) x_scale) k Phi sigma_Phi
  = Ok m1 ->
  exists x' m',
    fst (burnin_step x_scale k Phi sigma_Phi x0 (mk_world s g)) = Ok x' /\
    min_func s x' k Phi sigma_Phi = Ok m' /\
    (np_exp E ((- m') / 1000) <? np_exp E ((- m0) / 1000)) = false.
Proof.
  intros Hm0 Hm1.
  rewrite (burnin_step_run x_scale k Phi sigma_Phi s g x0 m0 m1 Hm0 Hm1).
  cbn [fst].
  destruct (np_exp E ((- m0) / 1000) <? np_exp E ((- m1) / 1000)) eqn:Hcmp.
  - eexists. exists m1. repeat split; eauto. now apply ltb_asym.
  - exists x0, m0. repeat split; auto. apply ltb_irrefl.
Qed.

Lemma burnin_step_never_descends_witness :
  exists x' m',
    fst (burnin_step (E := replay) np_ones4 [0.5] [-1] [1]
           (mk_vec4 3 1 10 5)
           (replay_world init (mk_tape [mk_vec4 0 (-2) 0 (-2)] [] [])))
    = Ok x' /\
    min_func (E := replay) init x' [0.5] [-1] [1] = Ok m' /\
    (step_exp ((- m') / 1000) <? step_exp ((- 0) / 1000)) = false.
Proof.
  apply (burnin_step_never_descends (E := replay) np_ones4 [0.5] [-1] [1]
           init (mk_tape [mk_vec4 0 (-2) 0 (-2)] [] []) (mk_vec4 3 1 10 5)
           0 0); reflexivity.
Defined.
